(** * The vSphere source adapter: resume position, dispatch and checkpointing

    A shallow embedding of [pkg/vsphere/adapter.go]: the checkpoint resolver
    [getBeginFromCheckpoint], the batch dispatcher [sendEvents], the poll
    loop [readEvents] and its caller [run].

    The collaborators the adapter talks to (vCenter, the CloudEvents sink,
    the key/value store, the clock) are not part of the adapter.  They are
    modelled at their interface: what they answer is supplied by the
    environment, what the adapter does with the answer is the code's. *)

From Stdlib Require Import ZArith Lia.
From stdpp Require Import base option list strings gmap pretty.

Local Open Scope Z_scope.

(** ** Machine integers *)

(** Go's [int64] arithmetic wraps around (two's complement). *)
Definition min_int64 : Z := - 2 ^ 63.
Definition max_int64 : Z := 2 ^ 63 - 1.

Definition wrap64 (z : Z) : Z := (z + 2 ^ 63) mod 2 ^ 64 - 2 ^ 63.

Definition int64_range (z : Z) : Prop := min_int64 <= z <= max_int64.

(** ** Package [time] *)

Module time.

(** A [Duration] is an [int64] count of nanoseconds. *)
Abbreviation Duration := Z (only parsing).

Definition Nanosecond : Duration := 1.
Definition Second : Duration := 1000000000.

(** [d * k] on durations is [int64] multiplication. *)
Definition mul (d k : Duration) : Duration := wrap64 (d * k).

(** A [Time] is an instant with nanosecond precision.  It is represented
    by the number of nanoseconds elapsed since the zero time, January 1,
    year 1, 00:00:00 UTC; the representable range is taken unbounded. *)
Abbreviation Time := Z (only parsing).

Definition zero : Time := 0.

(** Seconds from January 1, year 1 to January 1, 1970. *)
Definition unixToInternal : Z := (1969 * 365 + 1969 / 4 - 1969 / 100 + 1969 / 400) * 86400.

(** [t.IsZero()] *)
Definition IsZero (t : Time) : bool := bool_decide (t = zero).

(** [t.Add(d)] *)
Definition Add (t : Time) (d : Duration) : Time := t + d.

(** [t.Unix()]: whole seconds since January 1, 1970 UTC. *)
Definition Unix (t : Time) : Z := t `div` Second - unixToInternal.

(** [time.Unix(sec, nsec)] *)
Definition FromUnix (sec nsec : Z) : Time := (sec + unixToInternal) * Second + nsec.

(** [t.Before(u)] and friends are the order of instants. *)
Definition Before (t u : Time) : Prop := t < u.
Definition NotBefore (t u : Time) : Prop := u <= t.

(** The instant [d] before [t], as the specification writes [t - d]. *)
Definition Minus (t : Time) (d : Duration) : Time := t - d.

End time.

(** ** Logging *)

Inductive level := Debug | Info | Warn | Error.

Record entry := Entry { entry_level : level; entry_msg : string }.

#[global] Instance level_eq_dec : EqDecision level.
Proof. solve_decision. Defined.

#[global] Instance entry_eq_dec : EqDecision entry.
Proof. solve_decision. Defined.

(** ** The checkpoint *)

(** The fields are those of the struct literal in [readEvents]. *)
Record checkpoint := Checkpoint {
  VCenter : string;
  LastEventKey : Z;                 (* int32 *)
  LastEventType : string;
  LastEventKeyTimestamp : Z;        (* time.Time *)
  CreatedTimestamp : Z              (* time.Time *)
}.

(** [var cp checkpoint]: the zero value. *)
Definition checkpoint_zero : checkpoint :=
  {| VCenter := ""; LastEventKey := 0; LastEventType := "";
     LastEventKeyTimestamp := time.zero; CreatedTimestamp := time.zero |}.

Record CheckpointConfig := {
  MaxAge : Z;                       (* time.Duration *)
  Period : Z                        (* time.Duration *)
}.

(** ** [getBeginFromCheckpoint] *)

Definition msg_data_loss : string :=
  "potential data loss: last event timestamp in checkpoint is older than configured maximum".

(** The function returns the begin time; what it logs is returned with it. *)
Definition getBeginFromCheckpoint (vcTime : Z) (cp : checkpoint) (maxAge : Z)
  : Z * list entry :=
  let begin := vcTime in
  let cpTime := LastEventKeyTimestamp cp in
  if negb (time.IsZero cpTime) then
    let maxTime := time.Add begin (time.mul maxAge (-1)) in
    if bool_decide (time.Unix maxTime > time.Unix cpTime) then
      (maxTime,
       [ Entry Info "found existing checkpoint";
         Entry Warn msg_data_loss;
         Entry Warn "setting begin of event stream" ])
    else
      (cpTime,
       [ Entry Info "found existing checkpoint";
         Entry Info "setting begin of event stream" ])
  else
    (begin,
     [ Entry Info "no valid checkpoint found";
       Entry Info "setting begin of event stream" ]).

(** The resolver of the specification: the begin time alone. *)
Definition resolveBegin (now : Z) (cp : checkpoint) (maxReplayAge : Z) : Z :=
  fst (getBeginFromCheckpoint now cp maxReplayAge).

Definition data_loss_warned (now : Z) (cp : checkpoint) (maxReplayAge : Z) : bool :=
  bool_decide (Entry Warn msg_data_loss ∈ snd (getBeginFromCheckpoint now cp maxReplayAge)).

(** ** Errors *)

(** Go [error] values.  A nil error is [None] of [option error]. *)
Inductive error :=
  | Canceled                              (* context.Canceled *)
  | DeadlineExceeded                      (* context.DeadlineExceeded *)
  | ErrExternal (msg : string)            (* an error made by a collaborator *)
  | ResultACK (msg : string)              (* a CloudEvents result carrying an ACK *)
  | ResultNACK (msg : string)             (* a CloudEvents result carrying a NACK *)
  | Errorf (prefix : string) (err : error). (* fmt.Errorf("prefix: %w", err) *)

#[global] Instance error_eq_dec : EqDecision error.
Proof. solve_decision. Defined.

(** [errors.Is(err, target)]: [target] occurs in the chain of [err]. *)
Fixpoint errors_Is (err target : error) : bool :=
  bool_decide (err = target) ||
  match err with
  | Errorf _ inner => errors_Is inner target
  | _ => false
  end.

(** ** CloudEvents *)

Module cloudevents.

(** [protocol.Result] is an [error]; nil is an acknowledgement. *)
Abbreviation Result := (option error) (only parsing).

Fixpoint is_ack_error (e : error) : bool :=
  match e with
  | ResultACK _ => true
  | Errorf _ inner => is_ack_error inner
  | _ => false
  end.

(** [cloudevents.IsACK(result)] *)
Definition IsACK (result : Result) : bool :=
  match result with
  | None => true
  | Some e => is_ack_error e
  end.

(** The envelope, as far as [sendEvents] fills it in. *)
Record Event := {
  SpecVersion : string;
  Source : string;
  ID : string;
  Type_ : string;                 (* Type *)
  Time : Z;
  Extensions : gmap string string;
  DataContentType : string;
  Data : string
}.

Definition VersionV1 : string := "1.0".

(** [cloudevents.NewEvent(version)] *)
Definition NewEvent (version : string) : Event :=
  {| SpecVersion := version; Source := ""; ID := ""; Type_ := "";
     Time := time.zero; Extensions := ∅; DataContentType := ""; Data := "" |}.

(** The string functions of the SDK and of Go's library that the setters
    go through; they are not part of the adapter and are taken as given:
    [strings.TrimSpace], and [types.ParseURIRef], which answers the URI
    reference a string denotes, or nothing when it does not parse. *)
Record SDK := {
  TrimSpace : string → string;
  ParseURIRef : string → option string
}.

(** [ev.SetSource(s)]: the trimmed string is parsed as a URI reference;
    when it does not parse the source is left as it was. *)
Definition SetSource (sdk : SDK) (s : string) (ev : Event) : Event :=
  match ParseURIRef sdk (TrimSpace sdk s) with
  | Some u =>
      {| SpecVersion := SpecVersion ev; Source := u; ID := ID ev; Type_ := Type_ ev;
         Time := Time ev; Extensions := Extensions ev;
         DataContentType := DataContentType ev; Data := Data ev |}
  | None => ev
  end.

(** [SetID] and [SetType] trim their argument too; the strings
    [sendEvents] passes, a decimal number and a type between a fixed prefix
    and a fixed suffix, have no space at either end. *)
Definition SetID (s : string) (ev : Event) : Event :=
  {| SpecVersion := SpecVersion ev; Source := Source ev; ID := s; Type_ := Type_ ev;
     Time := Time ev; Extensions := Extensions ev;
     DataContentType := DataContentType ev; Data := Data ev |}.

Definition SetType (s : string) (ev : Event) : Event :=
  {| SpecVersion := SpecVersion ev; Source := Source ev; ID := ID ev; Type_ := s;
     Time := Time ev; Extensions := Extensions ev;
     DataContentType := DataContentType ev; Data := Data ev |}.

Definition SetTime (t : Z) (ev : Event) : Event :=
  {| SpecVersion := SpecVersion ev; Source := Source ev; ID := ID ev; Type_ := Type_ ev;
     Time := t; Extensions := Extensions ev;
     DataContentType := DataContentType ev; Data := Data ev |}.

Definition SetExtension (name value : string) (ev : Event) : Event :=
  {| SpecVersion := SpecVersion ev; Source := Source ev; ID := ID ev; Type_ := Type_ ev;
     Time := Time ev; Extensions := <[name := value]> (Extensions ev);
     DataContentType := DataContentType ev; Data := Data ev |}.

(** What a successful [ev.SetData(contentType, obj)] leaves: the content
    type, set through [SetDataContentType] and so trimmed, and the encoded
    payload. *)
Definition withData (sdk : SDK) (contentType payload : string) (ev : Event) : Event :=
  {| SpecVersion := SpecVersion ev; Source := Source ev; ID := ID ev; Type_ := Type_ ev;
     Time := Time ev; Extensions := Extensions ev;
     DataContentType := TrimSpace sdk contentType; Data := payload |}.

End cloudevents.

(** ** vSphere events *)

(** [types.BaseEvent], seen through [GetEvent()]: the key, the creation
    time, and a body the adapter never looks into. *)
Record BaseEvent := {
  Key : Z;                          (* int32 *)
  CreatedTime : Z;                  (* time.Time *)
  Body : string
}.

(** What [getEventDetails] returns. *)
Record EventDetails := {
  Class : string;
  EvType : string
}.

(** ** Constants of the adapter *)

Definition ceVSphereAPIKey : string := "vsphereapiversion".
Definition ceVSphereEventClass : string := "eventclass".
Definition maxEventsBatch : nat := 100.

(** [fmt.Sprintf(eventTypeFormat, t)] with
    [eventTypeFormat = "com.vmware.vsphere.%s.v0"] *)
Definition eventTypeFormat (t : string) : string :=
  "com.vmware.vsphere." +:+ t +:+ ".v0".

(** [fmt.Sprintf("%d", key)] *)
Definition fmt_d (key : Z) : string := pretty key.

(** ** The backoff controller *)

Module backoff.

(** [backoff.Backoff]: the policy and the attempt counter. *)
Record Backoff := {
  Factor : Z;
  Jitter : bool;
  Min : Z;                        (* time.Duration *)
  Max : Z;                        (* time.Duration *)
  attempt : nat
}.

(** Modelled from the spec: the package [github.com/jpillora/backoff] is
    not among the sources.  Section 4.2 gives its policy as
    [duration(n) = min(max, min_delay * factor^n)], without jitter. *)
Definition ForAttempt (b : Backoff) (n : nat) : Z :=
  Z.min (Max b) (Min b * Factor b ^ Z.of_nat n).

(** Modelled from the spec: [next()], one call per consecutive empty
    poll; it returns the duration of the current attempt and counts it. *)
Definition Duration (b : Backoff) : Z * Backoff :=
  (ForAttempt b (attempt b),
   {| Factor := Factor b; Jitter := Jitter b; Min := Min b; Max := Max b;
      attempt := S (attempt b) |}).

(** Modelled from the spec: [reset()] starts the sequence again. *)
Definition Reset (b : Backoff) : Backoff :=
  {| Factor := Factor b; Jitter := Jitter b; Min := Min b; Max := Max b;
     attempt := 0 |}.

End backoff.

(** The controller [readEvents] creates. *)
Definition bOff_init : backoff.Backoff :=
  {| backoff.Factor := 2; backoff.Jitter := false;
     backoff.Min := time.Second; backoff.Max := 5 * time.Second;
     backoff.attempt := 0 |}.

(** ** The key/value store *)

Module kvstore.

(** Modelled from the spec: [knative.dev/pkg/kvstore] is not among the
    sources.  Section 6 gives its interface: [get(key)] answers the value
    or an error, [stage(key, value)] is in memory, [flush()] persists all
    staged state.  [saves] counts the durable writes. *)
Record Store := {
  staged : gmap string checkpoint;
  durable : gmap string checkpoint;
  saves : nat
}.

Definition ErrNotFound : error := ErrExternal "key does not exist".

(** [Get(ctx, key, &value)]; [fail] is the failure the environment
    injects, if any. *)
Definition Get (fail : option error) (st : Store) (key : string) : error + checkpoint :=
  match fail with
  | Some err => inl err
  | None =>
      match staged st !! key with
      | Some v => inr v
      | None => inl ErrNotFound
      end
  end.

(** [Set(ctx, key, value)] *)
Definition Set_ (fail : option error) (st : Store) (key : string) (v : checkpoint)
  : error + Store :=
  match fail with
  | Some err => inl err
  | None =>
      inr {| staged := <[key := v]> (staged st); durable := durable st; saves := saves st |}
  end.

(** [Save(ctx)] *)
Definition Save (fail : option error) (st : Store) : error + Store :=
  match fail with
  | Some err => inl err
  | None =>
      inr {| staged := staged st; durable := staged st; saves := S (saves st) |}
  end.

End kvstore.

(** ** The world the adapter acts on *)

Record world := {
  kv : kvstore.Store;
  (** every envelope handed to the sink, oldest first, with the sink's answer *)
  deliveries : list (cloudevents.Event * option error);
  logs : list entry;
  (** monotonic time of the run, in nanoseconds; only [time.Sleep] is timed *)
  clock : Z;
  (** where the event stream was opened *)
  stream_begin : option Z
}.

Definition log (l : level) (m : string) (w : world) : world :=
  {| kv := kv w; deliveries := deliveries w; logs := logs w ++ [Entry l m];
     clock := clock w; stream_begin := stream_begin w |}.

Definition log_all (es : list entry) (w : world) : world :=
  {| kv := kv w; deliveries := deliveries w; logs := logs w ++ es;
     clock := clock w; stream_begin := stream_begin w |}.

Definition with_kv (st : kvstore.Store) (w : world) : world :=
  {| kv := st; deliveries := deliveries w; logs := logs w;
     clock := clock w; stream_begin := stream_begin w |}.

Definition delivered (ev : cloudevents.Event) (result : option error) (w : world) : world :=
  {| kv := kv w; deliveries := deliveries w ++ [(ev, result)]; logs := logs w;
     clock := clock w; stream_begin := stream_begin w |}.

(** [time.Sleep(d)] returns after [d], whatever happens meanwhile. *)
Definition Sleep (d : Z) (w : world) : world :=
  {| kv := kv w; deliveries := deliveries w; logs := logs w;
     clock := clock w + Z.max 0 d; stream_begin := stream_begin w |}.

Definition opened (begin : Z) (w : world) : world :=
  {| kv := kv w; deliveries := deliveries w; logs := logs w;
     clock := clock w; stream_begin := Some begin |}.

(** The number of envelopes the sink has acknowledged so far. *)
Definition acked (w : world) : nat :=
  length (filter (λ d, cloudevents.IsACK (snd d) = true) (deliveries w)).

(** The staged checkpoint, if any. *)
Definition staged_checkpoint (key : string) (w : world) : option checkpoint :=
  kvstore.staged (kv w) !! key.

(** The staged checkpoint of [w] is the one of [w0], or it carries the key
    and the creation time of an event whose envelope the sink acknowledged. *)
Definition staged_acked (key : string) (w0 w : world) : Prop :=
  staged_checkpoint key w = staged_checkpoint key w0 ∨
  ∃ cp ev result,
    staged_checkpoint key w = Some cp ∧
    (ev, result) ∈ deliveries w ∧ cloudevents.IsACK result = true ∧
    cloudevents.ID ev = fmt_d (LastEventKey cp) ∧
    cloudevents.Time ev = LastEventKeyTimestamp cp.

(** ** The context *)

(** [ctx]: when it is cancelled, if ever, and what [ctx.Err()] is then. *)
Record context := {
  cancel_at : option Z;
  ctx_err : error
}.

(** [ctx.Done()] is closed at time [now]. *)
Definition ctx_Done (ctx : context) (now : Z) : bool :=
  match cancel_at ctx with
  | Some c => bool_decide (c <= now)
  | None => false
  end.

(** ** [select] *)

Inductive select_case := CaseDone | CaseTick | CaseDefault.

(** The [select] of [readEvents]: two receives and a default.  The default
    runs only when neither channel is ready; when both are, the runtime
    chooses ([pick_done]). *)
Definition go_select (done tick pick_done : bool) : select_case :=
  match done, tick with
  | true, true => if pick_done then CaseDone else CaseTick
  | true, false => CaseDone
  | false, true => CaseTick
  | false, false => CaseDefault
  end.

(** ** The adapter *)

Record vAdapter := {
  Namespace : string;
  Source : string;
  VAPIVersion : string;
  CpConfig : CheckpointConfig;
  PayloadEncoding : string
}.

(** What the environment answers during one iteration of the poll loop. *)
Record env_step := {
  tick_ready : bool;                     (* a tick waits on cpTicker.C *)
  pick_done : bool;                      (* the runtime's choice in select *)
  get_fail : option error;               (* a.KVStore.Get *)
  save_fail : option error;              (* a.KVStore.Save *)
  set_fail : option error;               (* a.KVStore.Set *)
  read_next : error + list BaseEvent;    (* c.ReadNextEvents *)
  wall_now : Z                           (* time.Now().UTC() *)
}.

(** What the environment answers to [run] before the loop. *)
Record env_run := {
  init_get_fail : option error;          (* the first a.KVStore.Get *)
  current_time : error + Z;              (* methods.GetCurrentTime *)
  new_collector_fail : option error;     (* newHistoryCollector *)
  script : list env_step
}.

(** The variables of [readEvents]. *)
Record loop_state := {
  lastEvent : option BaseEvent;
  lastCheckpointEventKey : Z;            (* int32 *)
  bOff : backoff.Backoff
}.

Definition loop_init : loop_state :=
  {| lastEvent := None; lastCheckpointEventKey := 0; bOff := bOff_init |}.

Inductive outcome :=
  | Continue (s : loop_state) (w : world)      (* the loop goes on *)
  | Return (err : error) (w : world)           (* the function returned err *)
  | Panic (msg : string) (w : world).

Definition world_of (o : outcome) : world :=
  match o with
  | Continue _ w | Return _ w | Panic _ w => w
  end.

(** The variables of the loop when it goes on; the initial ones otherwise. *)
Definition state_of (o : outcome) : loop_state :=
  match o with
  | Continue s _ => s
  | _ => loop_init
  end.

(** The methods of the adapter, in a module named after their package. *)
Module vsphere.

Section Adapter.

(** The string functions behind the setters of the CloudEvents SDK. *)
Variable sdk : cloudevents.SDK.

(** [getEventDetails], defined elsewhere in the package. *)
Variable getEventDetails : BaseEvent → EventDetails.

(** The codec behind [ev.SetData(encoding, be)]: the payload or an error. *)
Variable encode : string → BaseEvent → error + string.

(** [a.CEClient.Send(ctx, ev)]: the sink's answer, which may depend on
    everything it was sent before. *)
Variable Send : list (cloudevents.Event * option error) → cloudevents.Event → option error.

(** [checkpointKey], a constant defined elsewhere in the package. *)
Variable checkpointKey : string.

Variable a : vAdapter.

(** The envelope of [be] before its data is set. *)
Definition envelope (be : BaseEvent) : cloudevents.Event :=
  let ev := cloudevents.NewEvent cloudevents.VersionV1 in
  let ev := cloudevents.SetSource sdk (Source a) ev in
  let details := getEventDetails be in
  let ev := cloudevents.SetID (fmt_d (Key be)) ev in
  let ev := cloudevents.SetType (eventTypeFormat (EvType details)) ev in
  let ev := cloudevents.SetTime (CreatedTime be) ev in
  let ev := cloudevents.SetExtension ceVSphereEventClass (Class details) ev in
  cloudevents.SetExtension ceVSphereAPIKey (VAPIVersion a) ev.

(** [ev.SetData(a.PayloadEncoding, be)] *)
Definition SetData (be : BaseEvent) (ev : cloudevents.Event) : error + cloudevents.Event :=
  match encode (PayloadEncoding a) be with
  | inl err => inl err
  | inr payload => inr (cloudevents.withData sdk (PayloadEncoding a) payload ev)
  end.

(** The body of the [for ... range baseEvents] of [sendEvents], from the
    event at hand on, with the running count [success] (an [int] that never
    exceeds [len(baseEvents)], hence a [nat] here). *)
Fixpoint sendEvents_from (baseEvents : list BaseEvent) (success : nat) (w : world)
  : (nat * option error) * world :=
  match baseEvents with
  | [] => ((success, None), w)
  | be :: rest =>
      match SetData be (envelope be) with
      | inl err => ((success, Some (Errorf "set data on event" err)), w)
      | inr ev =>
          let w := log Debug "sending event" w in
          let result := Send (deliveries w) ev in
          let w := delivered ev result w in
          if negb (cloudevents.IsACK result) then
            ((success, result), log Error "failed to send cloudevent" w)
          else sendEvents_from rest (S success) w
      end
  end.

Definition sendEvents (baseEvents : list BaseEvent) (w : world)
  : (nat * option error) * world :=
  sendEvents_from baseEvents 0 w.

(** The envelope [sendEvents] hands to the sink for [be], when [be]
    converts. *)
Definition converted (be : BaseEvent) : option cloudevents.Event :=
  match SetData be (envelope be) with
  | inl _ => None
  | inr ev => Some ev
  end.

(** What the sink has received once the events of [bes] were sent to it
    one after the other, up to the first that does not convert. *)
Fixpoint history_after (hist : list (cloudevents.Event * option error))
    (bes : list BaseEvent) : list (cloudevents.Event * option error) :=
  match bes with
  | [] => hist
  | be :: rest =>
      match converted be with
      | None => hist
      | Some ev => history_after (hist ++ [(ev, Send hist ev)]) rest
      end
  end.

(** [be] converts and the sink, having received [hist], acknowledges it. *)
Definition acknowledged (hist : list (cloudevents.Event * option error))
    (be : BaseEvent) : bool :=
  match converted be with
  | None => false
  | Some ev => cloudevents.IsACK (Send hist ev)
  end.

(** [c.ReadNextEvents(ctx, maxEventsBatch)]: an error, or at most
    [maxEventsBatch] events. *)
Definition ReadNextEvents (e : env_step) : error + list BaseEvent :=
  match read_next e with
  | inl err => inl err
  | inr events => inr (take maxEventsBatch events)
  end.

Definition set_lastCheckpointEventKey (k : Z) (s : loop_state) : loop_state :=
  {| lastEvent := lastEvent s; lastCheckpointEventKey := k; bOff := bOff s |}.

(** An event was delivered in this run and its key is not the one
    recorded at the last flush: the negation of the [skip] of the ticker
    case. *)
Definition flush_due (s : loop_state) : bool :=
  match lastEvent s with
  | None => false
  | Some le => negb (bool_decide (lastCheckpointEventKey s = Key le))
  end.

(** The checkpoint [readEvents] builds from the last delivered event. *)
Definition checkpoint_of (e : env_step) (le : BaseEvent) : checkpoint :=
  {| VCenter := Source a;
     LastEventKey := Key le;
     LastEventType := EvType (getEventDetails le);
     LastEventKeyTimestamp := CreatedTime le;
     CreatedTimestamp := wall_now e |}.

(** [case <-cpTicker.C:]; the flush is skipped when
    [lastEvent == nil || lastCheckpointEventKey == lastEvent.GetEvent().Key]. *)
Definition tick_branch (e : env_step) (s : loop_state) (w : world) : outcome :=
  let skipped :=
    Continue s (log Debug "skipping checkpoint: no new events since last checkpoint" w) in
  match lastEvent s with
  | None => skipped
  | Some le =>
      if bool_decide (lastCheckpointEventKey s = Key le) then skipped
      else
        match kvstore.Get (get_fail e) (kv w) checkpointKey with
        | inl err => Return (Errorf "retrieve current checkpoint" err) w
        | inr current =>
            let w := log Debug "creating checkpoint" w in
            match kvstore.Save (save_fail e) (kv w) with
            | inl err => Return (Errorf "save checkpoint" err) w
            | inr st => Continue (set_lastCheckpointEventKey (Key le) s) (with_kv st w)
            end
        end
  end.

(** [default:] *)
Definition poll_branch (e : env_step) (s : loop_state) (w : world) : outcome :=
  match ReadNextEvents e with
  | inl err => Return (Errorf "read events from vcenter" err) w
  | inr events =>
      if bool_decide (length events = 0%nat) then
        let '(delay, b) := backoff.Duration (bOff s) in
        let w := log Debug "backing off retrieving events: no new events received" w in
        let w := Sleep delay w in
        Continue {| lastEvent := lastEvent s;
                    lastCheckpointEventKey := lastCheckpointEventKey s;
                    bOff := b |} w
      else
        let w := log Debug "got events" w in
        let '((n, err), w) := sendEvents events w in
        let w := if err is Some _ then log Error "send events" w else w in
        if bool_decide (is_Some err ∧ n = 0%nat) then Continue s w
        else if bool_decide (n = 0%nat ∧ err = None) then
          Panic "we should never get here" w
        else
          match events !! (n - 1)%nat with
          | None => Panic "index out of range" w
          | Some le =>
              let cp := checkpoint_of e le in
              match kvstore.Set_ (set_fail e) (kv w) checkpointKey cp with
              | inl err => Return (Errorf "set checkpoint" err) w
              | inr st =>
                  Continue {| lastEvent := Some le;
                              lastCheckpointEventKey := lastCheckpointEventKey s;
                              bOff := backoff.Reset (bOff s) |} (with_kv st w)
              end
          end
  end.

(** One pass through the [for { select { ... } }] of [readEvents]. *)
Definition iteration (ctx : context) (e : env_step) (s : loop_state) (w : world) : outcome :=
  match go_select (ctx_Done ctx (clock w)) (tick_ready e) (pick_done e) with
  | CaseDone => Return (ctx_err ctx) w
  | CaseTick => tick_branch e s w
  | CaseDefault => poll_branch e s w
  end.

(** The loop, run against the answers of [script]; [Continue] when the
    script is used up and the loop is still going. *)
Fixpoint readEvents_loop (ctx : context) (script : list env_step)
    (s : loop_state) (w : world) : outcome :=
  match script with
  | [] => Continue s w
  | e :: rest =>
      match iteration ctx e s w with
      | Continue s' w' => readEvents_loop ctx rest s' w'
      | out => out
      end
  end.

(** [readEvents]; [time.NewTicker] panics on a non-positive period. *)
Definition readEvents (ctx : context) (script : list env_step) (w : world) : outcome :=
  if bool_decide (Period (CpConfig a) <= 0) then
    Panic "non-positive interval for NewTicker" w
  else readEvents_loop ctx script loop_init w.

(** [run] *)
Definition run (ctx : context) (env : env_run) (w : world) : outcome :=
  let '(cp, w) :=
    match kvstore.Get (init_get_fail env) (kv w) checkpointKey with
    | inl err => (checkpoint_zero, log Warn "could not retrieve checkpoint configuration" w)
    | inr cp => (cp, w)
    end in
  match current_time env with
  | inl err => Return (Errorf "get current time from vCenter" err) w
  | inr vcTime =>
      let '(begin, es) := getBeginFromCheckpoint vcTime cp (MaxAge (CpConfig a)) in
      let w := log_all es w in
      match new_collector_fail env with
      | Some err => Return (Errorf "create event collector" err) w
      | None => readEvents ctx (script env) (opened begin w)
      end
  end.

(** The world in which [run] enters the loop, once vCenter has told the
    time [vcTime] and the collector is created: the first read of the store
    and the resolver have logged, and the stream is open. *)
Definition loop_entry (env : env_run) (w : world) (vcTime : Z) : world :=
  let '(cp, w) :=
    match kvstore.Get (init_get_fail env) (kv w) checkpointKey with
    | inl err => (checkpoint_zero, log Warn "could not retrieve checkpoint configuration" w)
    | inr cp => (cp, w)
    end in
  let '(begin, es) := getBeginFromCheckpoint vcTime cp (MaxAge (CpConfig a)) in
  opened begin (log_all es w).

End Adapter.

End vsphere.

Import vsphere.

(** ** The interruptible wait of the specification *)

(** Section 5 asks for a backoff wait that observes cancellation: started
    at [start] for [delay], it ends when the delay is over or when the
    context is cancelled, whichever comes first. *)
Definition interruptible_wait_end (ctx : context) (start delay : Z) : Z :=
  match cancel_at ctx with
  | Some c => Z.min (start + Z.max 0 delay) (Z.max start c)
  | None => start + Z.max 0 delay
  end.

(** ** Successive backoff durations *)


Definition same_policy (b1 b2 : backoff.Backoff) : Prop :=
  backoff.Factor b1 = backoff.Factor b2 ∧ backoff.Jitter b1 = backoff.Jitter b2 ∧
  backoff.Min b1 = backoff.Min b2 ∧ backoff.Max b1 = backoff.Max b2.

(** ** A concrete adapter and concrete collaborators *)

Module demo.

(** String functions for the examples: nothing to trim, and every
    non-empty string taken as a URI reference. *)
Definition sdk : cloudevents.SDK :=
  {| cloudevents.TrimSpace := λ s, s;
     cloudevents.ParseURIRef := λ s, if bool_decide (s = "") then None else Some s |}.

Definition details (be : BaseEvent) : EventDetails :=
  {| Class := "event"; EvType := "VmPoweredOnEvent" |}.

Definition encode (encoding : string) (be : BaseEvent) : error + string :=
  inr (Body be).

(** A sink that acknowledges everything. *)
Definition sink_ack (hist : list (cloudevents.Event * option error))
    (ev : cloudevents.Event) : option error := None.

(** A sink that rejects the envelope with the given ID. *)
Definition sink_nack (id : string) (hist : list (cloudevents.Event * option error))
    (ev : cloudevents.Event) : option error :=
  if bool_decide (cloudevents.ID ev = id) then Some (ResultNACK "rejected") else None.

Definition key : string := "checkpoint".

Definition adapter : vAdapter :=
  {| Namespace := "default"; Source := "vcenter.local"; VAPIVersion := "7.0";
     CpConfig := {| MaxAge := 300 * time.Second; Period := 10 * time.Second |};
     PayloadEncoding := "application/xml" |}.

Definition event (k : Z) : BaseEvent :=
  {| Key := k; CreatedTime := time.FromUnix (1600000000 + k) 0; Body := "<event/>" |}.

Definition store_empty : kvstore.Store :=
  {| kvstore.staged := ∅; kvstore.durable := ∅; kvstore.saves := 0 |}.

Definition world_empty : world :=
  {| kv := store_empty; deliveries := []; logs := []; clock := 0; stream_begin := None |}.

Definition ctx_never : context := {| cancel_at := None; ctx_err := Canceled |}.

(** An iteration in which nothing is ready and the poll answers [events]. *)
Definition poll (events : list BaseEvent) : env_step :=
  {| tick_ready := false; pick_done := false; get_fail := None; save_fail := None;
     set_fail := None; read_next := inr events; wall_now := time.FromUnix 1600000100 0 |}.

(** An iteration in which the flush timer has fired. *)
Definition tick : env_step :=
  {| tick_ready := true; pick_done := false; get_fail := None; save_fail := None;
     set_fail := None; read_next := inr []; wall_now := time.FromUnix 1600000100 0 |}.

Definition checkpoint_at (t : Z) : checkpoint :=
  {| VCenter := "vcenter.local"; LastEventKey := 7; LastEventType := "VmPoweredOnEvent";
     LastEventKeyTimestamp := t; CreatedTimestamp := t |}.

(** The loop after a first batch of three events, all acknowledged. *)
Definition after_batch : loop_state * world :=
  match poll_branch sdk details encode sink_ack key adapter
          (poll [event 10; event 11; event 12]) loop_init world_empty with
  | Continue s w => (s, w)
  | _ => (loop_init, world_empty)
  end.

(** A context cancelled one nanosecond into the run. *)
Definition ctx_soon : context := {| cancel_at := Some 1; ctx_err := Canceled |}.

Definition store_down : error := ErrExternal "configmap unavailable".

(** A firing of the flush timer at which the store cannot be read. *)
Definition tick_store_down : env_step :=
  {| tick_ready := true; pick_done := false; get_fail := Some store_down;
     save_fail := None; set_fail := None; read_next := inr [];
     wall_now := time.FromUnix 1600000100 0 |}.

(** A start at which the store cannot be read. *)
Definition env_store_down : env_run :=
  {| init_get_fail := Some store_down;
     current_time := inr (time.FromUnix 1600000000 0);
     new_collector_fail := None;
     script := [poll []; poll []] |}.

(** A run in which three events are delivered and the store cannot be
    read at the flush that follows. *)
Definition env_flush_fails : env_run :=
  {| init_get_fail := None;
     current_time := inr (time.FromUnix 1600000100 0);
     new_collector_fail := None;
     script := [poll [event 10; event 11; event 12]; tick_store_down] |}.

(** A codec that cannot encode the event with the given key. *)
Definition encode_but (k : Z) (encoding : string) (be : BaseEvent) : error + string :=
  if bool_decide (Key be = k) then inl (ErrExternal "unsupported payload") else inr (Body be).

(** The world after a restart: the store holds the checkpoint the loop
    staged for the event with key 12. *)
Definition world_restarted : world :=
  {| kv := {| kvstore.staged := {[ key := checkpoint_of details adapter (poll []) (event 12) ]};
              kvstore.durable := {[ key := checkpoint_of details adapter (poll []) (event 12) ]};
              kvstore.saves := 0 |};
     deliveries := []; logs := []; clock := 0; stream_begin := None |}.

Definition env_restart : env_run :=
  {| init_get_fail := None;
     current_time := inr (time.FromUnix 1600000100 0);
     new_collector_fail := None;
     script := [poll []] |}.

Definition vcenter_down : error := ErrExternal "connection refused".

(** An iteration whose poll fails. *)
Definition poll_fails : env_step :=
  {| tick_ready := false; pick_done := false; get_fail := None; save_fail := None;
     set_fail := None; read_next := inl vcenter_down;
     wall_now := time.FromUnix 1600000100 0 |}.

End demo.

(** * Properties *)

(** ** Arithmetic of instants *)

Lemma unixToInternal_value : time.unixToInternal = 62135596800.
Proof. reflexivity. Qed.

Lemma wrap64_id z : int64_range z → wrap64 z = z.
Proof.
  unfold int64_range, min_int64, max_int64, wrap64. intros Hz.
  rewrite Z.mod_small by lia. lia.
Qed.

(** Negating a duration: exact but for the least one, which stays put. *)
Lemma mul_neg1 d :
  int64_range d →
  time.mul d (-1) = if bool_decide (d = min_int64) then min_int64 else - d.
Proof.
  intros Hd. unfold time.mul. case_bool_decide as Hmin.
  - subst d. reflexivity.
  - rewrite wrap64_id; unfold int64_range, min_int64, max_int64 in *; lia.
Qed.

Lemma mul_neg1_le d : int64_range d → time.mul d (-1) <= - d.
Proof.
  intros Hd. rewrite mul_neg1 by done. case_bool_decide; [|lia].
  subst d. unfold min_int64. lia.
Qed.

Lemma Unix_mono t u : t <= u → time.Unix t <= time.Unix u.
Proof.
  intros Htu. unfold time.Unix.
  assert (t `div` time.Second <= u `div` time.Second); [|lia].
  apply Z.div_le_mono; [reflexivity | done].
Qed.

Lemma Unix_FromUnix sec nsec :
  0 <= nsec < time.Second → time.Unix (time.FromUnix sec nsec) = sec.
Proof.
  intros Hn. unfold time.Unix, time.FromUnix.
  rewrite Z.div_add_l by (unfold time.Second; lia).
  rewrite Z.div_small by done. lia.
Qed.

Lemma IsZero_false t : t ≠ time.zero → time.IsZero t = false.
Proof. intros Ht. unfold time.IsZero. by rewrite bool_decide_eq_false. Qed.

(** ** The checkpoint resolver *)

(** The three branches of [getBeginFromCheckpoint]. *)
Lemma resolveBegin_empty now cp maxAge :
  time.IsZero (LastEventKeyTimestamp cp) = true →
  resolveBegin now cp maxAge = now.
Proof.
  intros Hz. unfold resolveBegin, getBeginFromCheckpoint. by rewrite Hz.
Qed.

Lemma resolveBegin_clamp now cp maxAge :
  time.IsZero (LastEventKeyTimestamp cp) = false →
  time.Unix (time.Add now (time.mul maxAge (-1))) > time.Unix (LastEventKeyTimestamp cp) →
  getBeginFromCheckpoint now cp maxAge =
    (time.Add now (time.mul maxAge (-1)),
     [ Entry Info "found existing checkpoint"; Entry Warn msg_data_loss;
       Entry Warn "setting begin of event stream" ]).
Proof.
  intros Hz Hgt. unfold getBeginFromCheckpoint. rewrite Hz. simpl.
  by rewrite bool_decide_eq_true_2.
Qed.

Lemma resolveBegin_resume now cp maxAge :
  time.IsZero (LastEventKeyTimestamp cp) = false →
  time.Unix (time.Add now (time.mul maxAge (-1))) <= time.Unix (LastEventKeyTimestamp cp) →
  getBeginFromCheckpoint now cp maxAge =
    (LastEventKeyTimestamp cp,
     [ Entry Info "found existing checkpoint";
       Entry Info "setting begin of event stream" ]).
Proof.
  intros Hz Hle. unfold getBeginFromCheckpoint. rewrite Hz. simpl.
  rewrite bool_decide_eq_false_2; [done | lia].
Qed.

(** C3. Exact resume: for a checkpoint whose last event timestamp is
    non-zero and not before [now - maxReplayAge], the resolver returns
    exactly that timestamp. *)
Theorem exact_resume (now : Z) (cp : checkpoint) (maxReplayAge : Z) :
  int64_range maxReplayAge →
  time.IsZero (LastEventKeyTimestamp cp) = false →
  time.NotBefore (LastEventKeyTimestamp cp) (time.Minus now maxReplayAge) →
  resolveBegin now cp maxReplayAge = LastEventKeyTimestamp cp.
Proof.
  intros Hd Hz Hge. unfold resolveBegin.
  rewrite resolveBegin_resume; [done | done |].
  apply Unix_mono. unfold time.Add, time.NotBefore, time.Minus in *.
  pose proof (mul_neg1_le maxReplayAge Hd). lia.
Qed.

Lemma exact_resume_witness :
  resolveBegin (time.FromUnix 1600000000 0)
    (demo.checkpoint_at (time.FromUnix 1599999900 0)) (300 * time.Second)
  = time.FromUnix 1599999900 0.
Proof.
  apply (exact_resume (time.FromUnix 1600000000 0)
           (demo.checkpoint_at (time.FromUnix 1599999900 0)) (300 * time.Second)).
  - unfold int64_range, min_int64, max_int64, time.Second. lia.
  - reflexivity.
  - unfold time.NotBefore, time.Minus. vm_compute. discriminate.
Defined.

(** C4, as stated, fails below the second: the code compares
    [maxTime.Unix()] with [cpTime.Unix()].  With [now] at 100.5s, a replay
    age of 10s and a checkpoint at 90.2s the checkpoint is before the floor
    of 90.5s, yet the resolver resumes at the checkpoint and does not warn. *)
Lemma replay_clamp_subsecond_counterexample :
  let now := time.FromUnix 100 500000000 in
  let cp := demo.checkpoint_at (time.FromUnix 90 200000000) in
  let maxReplayAge := 10 * time.Second in
  time.IsZero (LastEventKeyTimestamp cp) = false ∧
  time.Before (LastEventKeyTimestamp cp) (time.Minus now maxReplayAge) ∧
  resolveBegin now cp maxReplayAge ≠ time.Minus now maxReplayAge ∧
  resolveBegin now cp maxReplayAge = LastEventKeyTimestamp cp ∧
  data_loss_warned now cp maxReplayAge = false.
Proof. repeat split; vm_compute; congruence. Qed.

(** C4, amended. Replay clamp at the granularity of seconds: for a
    replay age whose negation is representable and a checkpoint whose
    non-zero last event timestamp lies in an earlier Unix second than the
    floor [now - maxReplayAge], the resolver returns the floor and logs the
    data-loss warning. *)
Theorem replay_clamp_seconds (now : Z) (cp : checkpoint) (maxReplayAge : Z) :
  min_int64 < maxReplayAge <= max_int64 →
  time.IsZero (LastEventKeyTimestamp cp) = false →
  time.Unix (LastEventKeyTimestamp cp) < time.Unix (time.Minus now maxReplayAge) →
  resolveBegin now cp maxReplayAge = time.Minus now maxReplayAge ∧
  data_loss_warned now cp maxReplayAge = true.
Proof.
  intros Hd Hz Hlt.
  assert (Hneg : time.mul maxReplayAge (-1) = - maxReplayAge).
  { rewrite mul_neg1 by (unfold int64_range; lia).
    rewrite bool_decide_eq_false_2; [done | lia]. }
  unfold resolveBegin, data_loss_warned.
  rewrite resolveBegin_clamp; [| done |].
  - simpl. rewrite Hneg. split; [unfold time.Add, time.Minus; lia | done].
  - rewrite Hneg. unfold time.Add, time.Minus in *.
    replace (now + - maxReplayAge) with (now - maxReplayAge) by lia. lia.
Qed.

Lemma replay_clamp_seconds_witness :
  let now := time.FromUnix 1600000000 0 in
  let cp := demo.checkpoint_at (time.FromUnix 1599964000 0) in
  resolveBegin now cp (3600 * time.Second) = time.Minus now (3600 * time.Second) ∧
  data_loss_warned now cp (3600 * time.Second) = true.
Proof.
  apply (replay_clamp_seconds (time.FromUnix 1600000000 0)
           (demo.checkpoint_at (time.FromUnix 1599964000 0)) (3600 * time.Second)).
  - unfold min_int64, max_int64, time.Second. lia.
  - reflexivity.
  - vm_compute. reflexivity.
Defined.

(** C9, as stated, fails for a checkpoint later than [now]: with the
    replay window disabled the resolver still resumes at the checkpoint. *)
Lemma disabled_window_counterexample :
  let now := time.FromUnix 1600000000 0 in
  let cp := demo.checkpoint_at (time.FromUnix 1600000060 0) in
  resolveBegin now cp 0 ≠ now ∧
  resolveBegin now cp 0 = LastEventKeyTimestamp cp.
Proof. split; vm_compute; congruence. Qed.

(** C9, amended. With [maxReplayAge = 0] the resolver returns [now] for
    every checkpoint whose last event timestamp is zero, equal to [now], or
    in an earlier Unix second than [now]; for a non-zero timestamp in the
    Unix second of [now] or a later one it returns that timestamp. *)
Theorem disabled_window (now : Z) (cp : checkpoint) :
  (time.IsZero (LastEventKeyTimestamp cp) = true ∨
   LastEventKeyTimestamp cp = now ∨
   time.Unix (LastEventKeyTimestamp cp) < time.Unix now →
   resolveBegin now cp 0 = now) ∧
  (time.IsZero (LastEventKeyTimestamp cp) = false →
   time.Unix now <= time.Unix (LastEventKeyTimestamp cp) →
   resolveBegin now cp 0 = LastEventKeyTimestamp cp).
Proof.
  assert (Hfloor : time.Add now (time.mul 0 (-1)) = now).
  { unfold time.Add. change (time.mul 0 (-1)) with 0. lia. }
  split.
  - intros Hcase.
    destruct (time.IsZero (LastEventKeyTimestamp cp)) eqn:Hz;
      [by apply resolveBegin_empty |].
    destruct (Z_lt_le_dec (time.Unix (LastEventKeyTimestamp cp)) (time.Unix now))
      as [Hlt | Hle].
    + unfold resolveBegin. rewrite resolveBegin_clamp; [by rewrite Hfloor | done |].
      rewrite Hfloor. lia.
    + destruct Hcase as [? | [Heq | ?]]; [done | | lia].
      unfold resolveBegin. rewrite resolveBegin_resume; [done | done |].
      by rewrite Hfloor.
  - intros Hz Hle. unfold resolveBegin.
    rewrite resolveBegin_resume; [done | done |]. by rewrite Hfloor.
Qed.

Lemma disabled_window_witness :
  resolveBegin (time.FromUnix 1600000000 0)
    (demo.checkpoint_at (time.FromUnix 1599999000 0)) 0 = time.FromUnix 1600000000 0 ∧
  resolveBegin (time.FromUnix 1600000000 0)
    (demo.checkpoint_at (time.FromUnix 1600000000 700)) 0 = time.FromUnix 1600000000 700.
Proof.
  split.
  - apply (disabled_window (time.FromUnix 1600000000 0)
             (demo.checkpoint_at (time.FromUnix 1599999000 0))).
    right; right. vm_compute. reflexivity.
  - apply (disabled_window (time.FromUnix 1600000000 0)
             (demo.checkpoint_at (time.FromUnix 1600000000 700))).
    + reflexivity.
    + vm_compute. discriminate.
Defined.

(** ** Dispatch *)

Section Dispatch.

Context (sdk : cloudevents.SDK)
        (getEventDetails : BaseEvent → EventDetails)
        (encode : string → BaseEvent → error + string)
        (Send : list (cloudevents.Event * option error) → cloudevents.Event → option error)
        (a : vAdapter).

Local Abbreviation sendEvents_from := (sendEvents_from sdk getEventDetails encode Send a).
Local Abbreviation sendEvents := (sendEvents sdk getEventDetails encode Send a).
Local Abbreviation converted := (converted sdk getEventDetails encode a).
Local Abbreviation history_after := (history_after sdk getEventDetails encode Send a).
Local Abbreviation acknowledged := (acknowledged sdk getEventDetails encode Send a).

Lemma IsACK_false_is_Some result :
  cloudevents.IsACK result = false → is_Some result.
Proof. destruct result; [eauto | discriminate]. Qed.

(** One step of the loop of [sendEvents], by what happens to the event. *)
Lemma sendEvents_from_cons be rest c w :
  sendEvents_from (be :: rest) c w =
    match converted be with
    | None =>
        match encode (PayloadEncoding a) be with
        | inl err => ((c, Some (Errorf "set data on event" err)), w)
        | inr _ => ((c, None), w)
        end
    | Some ev =>
        let result := Send (deliveries w) ev in
        let w1 := delivered ev result (log Debug "sending event" w) in
        if cloudevents.IsACK result then sendEvents_from rest (S c) w1
        else ((c, result), log Error "failed to send cloudevent" w1)
    end.
Proof.
  simpl. unfold vsphere.converted, SetData.
  destruct (encode (PayloadEncoding a) be) as [err | payload]; [done |].
  simpl. by destruct (cloudevents.IsACK _).
Qed.

Lemma converted_None be :
  converted be = None → ∃ err, encode (PayloadEncoding a) be = inl err.
Proof.
  unfold vsphere.converted, SetData.
  destruct (encode (PayloadEncoding a) be) as [err | payload]; [eauto | done].
Qed.

(** The count grows by at most the length of the batch, and the error is
    nil exactly when it grows by all of it. *)
Lemma sendEvents_from_count evs c w n err w' :
  sendEvents_from evs c w = ((n, err), w') →
  (c ≤ n ≤ c + length evs)%nat ∧ (err = None ↔ n = (c + length evs)%nat).
Proof.
  revert c w. induction evs as [| be rest IH]; intros c w Hrun.
  - simpl in Hrun. simplify_eq. simpl. split; [lia | split; [lia | done]].
  - rewrite sendEvents_from_cons in Hrun.
    destruct (converted be) as [ev |] eqn:Hconv.
    + simpl in Hrun. destruct (cloudevents.IsACK _) eqn:Hack.
      * apply IH in Hrun as [Hn Herr]. simpl. split; [lia |].
        rewrite Herr. lia.
      * simplify_eq. apply IsACK_false_is_Some in Hack as [e He].
        rewrite He. simpl. split; [lia | split; [done | lia]].
    + apply converted_None in Hconv as [e He]. rewrite He in Hrun.
      simplify_eq. simpl. split; [lia | split; [done | lia]].
Qed.

(** [sendEvents] touches neither the store nor the clock. *)
Lemma sendEvents_from_frame evs c w n err w' :
  sendEvents_from evs c w = ((n, err), w') →
  kv w' = kv w ∧ clock w' = clock w ∧ stream_begin w' = stream_begin w.
Proof.
  revert c w. induction evs as [| be rest IH]; intros c w Hrun.
  - simpl in Hrun. by simplify_eq.
  - rewrite sendEvents_from_cons in Hrun.
    destruct (converted be) as [ev |] eqn:Hconv.
    + simpl in Hrun. destruct (cloudevents.IsACK _) eqn:Hack.
      * by apply IH in Hrun.
      * by simplify_eq.
    + apply converted_None in Hconv as [e He]. rewrite He in Hrun. by simplify_eq.
Qed.

Lemma history_after_cons hist be ev rest :
  converted be = Some ev →
  history_after hist (be :: rest) = history_after (hist ++ [(ev, Send hist ev)]) rest.
Proof. intros Hconv. simpl. by rewrite Hconv. Qed.

(** The first failure decides the result: when the events before
    position [j] are acknowledged in turn and the one at [j] is not, the
    count is [j], the error is not nil, and the sink has received the
    events up to the one at [j] and no other. *)
Lemma sendEvents_from_fail evs c w j :
  (j < length evs)%nat →
  (∀ i be, (i < j)%nat → evs !! i = Some be →
     acknowledged (history_after (deliveries w) (take i evs)) be = true) →
  (∀ be, evs !! j = Some be →
     acknowledged (history_after (deliveries w) (take j evs)) be = false) →
  ∃ err w',
    sendEvents_from evs c w = (((c + j)%nat, Some err), w') ∧
    deliveries w' = history_after (deliveries w) (take (S j) evs).
Proof.
  revert c w j. induction evs as [| be rest IH]; intros c w j Hj Hacks Hfail.
  - simpl in Hj. lia.
  - rewrite sendEvents_from_cons. destruct j as [| j].
    + specialize (Hfail be eq_refl). simpl in Hfail.
      unfold vsphere.acknowledged in Hfail. simpl.
      destruct (converted be) as [ev |] eqn:Hconv.
      * simpl. rewrite Hfail. simpl.
        destruct (IsACK_false_is_Some _ Hfail) as [e He].
        exists e. eexists. rewrite He, Nat.add_0_r. split; [done |].
        simpl. done.
      * destruct (converted_None _ Hconv) as [e He]. rewrite He.
        exists (Errorf "set data on event" e), w. by rewrite Nat.add_0_r.
    + pose proof (Hacks 0%nat be ltac:(lia) eq_refl) as Hhead. simpl in Hhead.
      unfold vsphere.acknowledged in Hhead.
      destruct (converted be) as [ev |] eqn:Hconv; [| done].
      simpl. rewrite Hhead.
      set (w1 := delivered ev (Send (deliveries w) ev) (log Debug "sending event" w)).
      destruct (IH (S c) w1 j) as (err & w' & Hrun & Hdel).
      * simpl in Hj. lia.
      * intros i be' Hi Hlook.
        specialize (Hacks (S i) be' ltac:(lia) Hlook).
        by rewrite firstn_cons, (history_after_cons _ _ ev) in Hacks.
      * intros be' Hlook. specialize (Hfail be' Hlook).
        by rewrite firstn_cons, (history_after_cons _ _ ev) in Hfail.
      * exists err, w'. rewrite Hrun, Hdel. split; [f_equal; f_equal; lia |].
        by rewrite Hconv.
Qed.

(** What was sent is, position by position, the batch. *)
Lemma history_after_positions hist bes :
  ∃ sent,
    history_after hist bes = hist ++ sent ∧
    (length sent ≤ length bes)%nat ∧
    ∀ i d, sent !! i = Some d → ∃ be, bes !! i = Some be ∧ converted be = Some d.1.
Proof.
  revert hist. induction bes as [| be rest IH]; intros hist.
  - exists []. simpl. rewrite app_nil_r. split; [done | split; [lia | done]].
  - simpl. destruct (converted be) as [ev |] eqn:Hconv.
    + destruct (IH (hist ++ [(ev, Send hist ev)])) as (sent & Heq & Hlen & Hpos).
      exists ((ev, Send hist ev) :: sent). rewrite Heq, <- app_assoc. simpl.
      split; [done | split; [lia |]].
      intros [| i] d Hd; simpl in Hd.
      * simplify_eq. eauto.
      * by apply Hpos.
    + exists []. rewrite app_nil_r. simpl. split; [done | split; [lia | done]].
Qed.

(** Every event counted as a success was handed to the sink and
    acknowledged by it. *)
Lemma sendEvents_from_acked evs c w n err w' :
  sendEvents_from evs c w = ((n, err), w') →
  (∃ more, deliveries w' = deliveries w ++ more) ∧
  acked w' = (acked w + (n - c))%nat ∧
  ∀ i be, (i < n - c)%nat → evs !! i = Some be →
    ∃ ev result, converted be = Some ev ∧ (ev, result) ∈ deliveries w' ∧
                 cloudevents.IsACK result = true.
Proof.
  revert c w. induction evs as [| be rest IH]; intros c w Hrun.
  - simpl in Hrun. simplify_eq. split; [exists []; by rewrite app_nil_r |].
    split; [lia |]. intros i be Hi. lia.
  - rewrite sendEvents_from_cons in Hrun.
    destruct (converted be) as [ev |] eqn:Hconv.
    + simpl in Hrun. destruct (cloudevents.IsACK _) eqn:Hack.
      * pose proof (sendEvents_from_count _ _ _ _ _ _ Hrun) as [Hn _].
        apply IH in Hrun as ([more Hmore] & Hcount & Hpos). simpl in Hmore.
        split; [exists ((ev, Send (deliveries w) ev) :: more);
                by rewrite Hmore, <- app_assoc |].
        split.
        { rewrite Hcount. unfold acked. simpl. rewrite filter_app, length_app.
          rewrite filter_cons_True by done. simpl. lia. }
        intros [| i] be' Hi Hlook; simpl in Hlook.
        -- simplify_eq. exists ev, (Send (deliveries w) ev).
           split; [done | split; [| done]].
           rewrite Hmore. apply elem_of_app. left. apply elem_of_app. right.
           by apply list_elem_of_singleton.
        -- apply (Hpos i be'); [lia | done].
      * simplify_eq. simpl. split; [by eexists |].
        split; [| intros i be' Hi; lia].
        unfold acked. simpl. rewrite filter_app, length_app.
        rewrite filter_cons_False by (simpl; congruence). simpl. lia.
    + apply converted_None in Hconv as [e He]. rewrite He in Hrun. simplify_eq.
      split; [exists []; by rewrite app_nil_r |].
      split; [lia | intros i be' Hi; lia].
Qed.

(** C2. Dispatch stops at the first failure: when the sink
    acknowledges the events at positions 1..k-1 of the batch and the k-th
    is rejected by the sink or does not convert, [sendEvents] returns the
    count k-1 with a non-nil error, and what the sink received from this
    call is, in order, events at positions up to k and none after; for
    any batch the error is nil exactly when the count is the length of
    the batch. *)
Theorem dispatch_partial_failure (events : list BaseEvent) (w : world) :
  (∀ n err w', sendEvents events w = ((n, err), w') →
     (n ≤ length events)%nat ∧ (err = None ↔ n = length events)) ∧
  (∀ k : nat,
     (1 ≤ k ≤ length events)%nat →
     (∀ i be, (i < k - 1)%nat → events !! i = Some be →
        acknowledged (history_after (deliveries w) (take i events)) be = true) →
     (∀ be, events !! (k - 1)%nat = Some be →
        acknowledged (history_after (deliveries w) (take (k - 1) events)) be = false) →
     ∃ err w' sent,
       sendEvents events w = (((k - 1)%nat, Some err), w') ∧
       deliveries w' = deliveries w ++ sent ∧
       (length sent ≤ k)%nat ∧
       ∀ i d, sent !! i = Some d →
         ∃ be, events !! i = Some be ∧ converted be = Some d.1).
Proof.
  split.
  - intros n err w' Hrun.
    apply sendEvents_from_count in Hrun as [Hn Herr]. simpl in *.
    split; [lia | done].
  - intros k Hk Hacks Hfail.
    destruct (sendEvents_from_fail events 0 w (k - 1)) as (err & w' & Hrun & Hdel);
      [lia | done | done |].
    destruct (history_after_positions (deliveries w) (take (S (k - 1)) events))
      as (sent & Heq & Hlen & Hpos).
    exists err, w', sent. split; [done |]. split; [by rewrite Hdel |].
    rewrite length_take in Hlen. split; [lia |].
    intros i d Hd. destruct (Hpos i d Hd) as (be & Hbe & Hconv).
    exists be. split; [| done].
    apply lookup_take_Some in Hbe. by destruct Hbe.
Qed.

End Dispatch.

Lemma dispatch_partial_failure_witness :
  ∃ err w' sent,
    sendEvents demo.sdk demo.details demo.encode (demo.sink_nack "12") demo.adapter
      [demo.event 10; demo.event 11; demo.event 12; demo.event 13] demo.world_empty
    = ((2%nat, Some err), w') ∧
    deliveries w' = deliveries demo.world_empty ++ sent ∧
    (length sent ≤ 3)%nat ∧
    ∀ i d, sent !! i = Some d →
      ∃ be, [demo.event 10; demo.event 11; demo.event 12; demo.event 13] !! i = Some be ∧
            converted demo.sdk demo.details demo.encode demo.adapter be = Some d.1.
Proof.
  apply (proj2 (dispatch_partial_failure demo.sdk demo.details demo.encode (demo.sink_nack "12")
                  demo.adapter
                  [demo.event 10; demo.event 11; demo.event 12; demo.event 13]
                  demo.world_empty) 3%nat).
  - simpl. lia.
  - intros [| [| i]] be Hi Hbe; [| | lia]; simpl in Hbe; simplify_eq; vm_compute; reflexivity.
  - intros be Hbe. simpl in Hbe. simplify_eq. vm_compute. reflexivity.
Defined.

(** ** The poll loop *)

Section Loop.

Context (sdk : cloudevents.SDK)
        (getEventDetails : BaseEvent → EventDetails)
        (encode : string → BaseEvent → error + string)
        (Send : list (cloudevents.Event * option error) → cloudevents.Event → option error)
        (checkpointKey : string)
        (a : vAdapter).

Local Abbreviation sendEvents := (sendEvents sdk getEventDetails encode Send a).
Local Abbreviation converted := (converted sdk getEventDetails encode a).
Local Abbreviation checkpoint_of := (checkpoint_of getEventDetails a).
Local Abbreviation tick_branch := (tick_branch checkpointKey).
Local Abbreviation poll_branch := (poll_branch sdk getEventDetails encode Send checkpointKey a).
Local Abbreviation iteration := (iteration sdk getEventDetails encode Send checkpointKey a).
Local Abbreviation readEvents_loop :=
  (readEvents_loop sdk getEventDetails encode Send checkpointKey a).
Local Abbreviation readEvents := (readEvents sdk getEventDetails encode Send checkpointKey a).
Local Abbreviation run := (run sdk getEventDetails encode Send checkpointKey a).
Local Abbreviation loop_entry := (loop_entry checkpointKey a).

(** *** The default case, by what the poll and the dispatch answer *)

Lemma poll_branch_read_error e s w err :
  ReadNextEvents e = inl err →
  poll_branch e s w = Return (Errorf "read events from vcenter" err) w.
Proof. intros Hread. unfold vsphere.poll_branch. by rewrite Hread. Qed.

Lemma poll_branch_empty e s w :
  ReadNextEvents e = inr [] →
  poll_branch e s w =
    Continue {| lastEvent := lastEvent s;
                lastCheckpointEventKey := lastCheckpointEventKey s;
                bOff := snd (backoff.Duration (bOff s)) |}
             (Sleep (fst (backoff.Duration (bOff s)))
                (log Debug "backing off retrieving events: no new events received" w)).
Proof. intros Hread. unfold vsphere.poll_branch. by rewrite Hread. Qed.

Lemma poll_branch_none_delivered e s w events err w1 :
  ReadNextEvents e = inr events → events ≠ [] →
  sendEvents events (log Debug "got events" w) = ((0%nat, err), w1) →
  poll_branch e s w = Continue s (log Error "send events" w1).
Proof.
  intros Hread Hne Hsend. unfold vsphere.poll_branch. rewrite Hread.
  rewrite bool_decide_eq_false_2 by (destruct events; [done | simpl; lia]).
  rewrite Hsend.
  pose proof (sendEvents_from_count _ _ _ _ _ _ _ _ _ _ _ Hsend) as [_ Herr].
  destruct err as [err |].
  - by rewrite bool_decide_eq_true_2 by eauto.
  - exfalso. destruct events; [done |]. simpl in Herr.
    assert (0 = S (length events))%nat by (by apply Herr). lia.
Qed.

Lemma poll_branch_delivered e s w events n err w1 :
  ReadNextEvents e = inr events →
  sendEvents events (log Debug "got events" w) = ((n, err), w1) →
  (0 < n)%nat →
  ∃ le w2,
    events !! (n - 1)%nat = Some le ∧
    w2 = (if err is Some _ then log Error "send events" w1 else w1) ∧
    poll_branch e s w =
      match kvstore.Set_ (set_fail e) (kv w2) checkpointKey (checkpoint_of e le) with
      | inl err' => Return (Errorf "set checkpoint" err') w2
      | inr st =>
          Continue {| lastEvent := Some le;
                      lastCheckpointEventKey := lastCheckpointEventKey s;
                      bOff := backoff.Reset (bOff s) |} (with_kv st w2)
      end.
Proof.
  intros Hread Hsend Hn.
  pose proof (sendEvents_from_count _ _ _ _ _ _ _ _ _ _ _ Hsend) as [Hle _].
  simpl in Hle.
  destruct (lookup_lt_is_Some_2 events (n - 1)) as [le Hle']; [lia |].
  exists le. eexists. split; [done |]. split; [done |].
  unfold vsphere.poll_branch. rewrite Hread.
  rewrite bool_decide_eq_false_2 by lia.
  rewrite Hsend.
  rewrite (bool_decide_eq_false_2 (_ ∧ n = 0%nat)) by lia.
  rewrite (bool_decide_eq_false_2 (n = 0%nat ∧ _)) by lia.
  by rewrite Hle'.
Qed.

(** *** No panic *)

Lemma tick_branch_no_panic e s w msg w' : tick_branch e s w ≠ Panic msg w'.
Proof.
  unfold vsphere.tick_branch. destruct (lastEvent s) as [le |]; [| done].
  case_bool_decide; [done |].
  destruct (kvstore.Get _ _ _); [done |].
  by destruct (kvstore.Save _ _).
Qed.

Lemma poll_branch_no_panic e s w msg w' : poll_branch e s w ≠ Panic msg w'.
Proof.
  destruct (ReadNextEvents e) as [err | events] eqn:Hread.
  { by rewrite (poll_branch_read_error _ _ _ err). }
  destruct events as [| be rest].
  { by rewrite poll_branch_empty. }
  destruct (sendEvents (be :: rest) (log Debug "got events" w)) as [[n err] w1] eqn:Hsend.
  destruct n as [| n].
  - by erewrite poll_branch_none_delivered.
  - destruct (poll_branch_delivered e s w _ _ _ _ Hread Hsend ltac:(lia))
      as (le & w2 & _ & _ & ->).
    by destruct (kvstore.Set_ _ _ _ _).
Qed.

Lemma iteration_no_panic ctx e s w msg w' : iteration ctx e s w ≠ Panic msg w'.
Proof.
  unfold vsphere.iteration. destruct (go_select _ _ _);
    [done | apply tick_branch_no_panic | apply poll_branch_no_panic].
Qed.

Lemma readEvents_loop_no_panic ctx script s w msg w' :
  readEvents_loop ctx script s w ≠ Panic msg w'.
Proof.
  revert s w. induction script as [| e rest IH]; intros s w; [done |].
  simpl. destruct (vsphere.iteration _ _ _ _ _ _ _ _ _ _) as [s1 w1 | |] eqn:Hit;
    [apply IH | done |].
  by apply iteration_no_panic in Hit.
Qed.

(** C10. For a non-empty batch [sendEvents] returns a count of at
    least one or a non-nil error, so the [panic] of the poll loop that
    guards a zero count with a nil error is never reached: no iteration
    of the loop panics. *)
Theorem panic_unreachable (events : list BaseEvent) (w : world) :
  events ≠ [] →
  ((1 ≤ fst (fst (sendEvents events w)))%nat ∨ is_Some (snd (fst (sendEvents events w)))) ∧
  (∀ ctx script s w0 msg w', readEvents_loop ctx script s w0 ≠ Panic msg w').
Proof.
  intros Hne. split; [| intros; apply readEvents_loop_no_panic].
  destruct (sendEvents events w) as [[n err] w1] eqn:Hsend. simpl.
  pose proof (sendEvents_from_count _ _ _ _ _ _ _ _ _ _ _ Hsend) as [_ Herr].
  destruct err as [err |]; [right; eauto | left].
  destruct events; [done |]. simpl in Herr.
  assert (n = S (length events)) by (by apply Herr). lia.
Qed.

(** *** The ticker case *)

Lemma tick_branch_skip e s w :
  flush_due s = false →
  tick_branch e s w =
    Continue s (log Debug "skipping checkpoint: no new events since last checkpoint" w).
Proof.
  unfold flush_due, vsphere.tick_branch. destruct (lastEvent s) as [le |]; [| done].
  by case_bool_decide.
Qed.

Lemma tick_branch_flush e s w :
  flush_due s = true →
  ∃ le, lastEvent s = Some le ∧
    tick_branch e s w =
      match kvstore.Get (get_fail e) (kv w) checkpointKey with
      | inl err => Return (Errorf "retrieve current checkpoint" err) w
      | inr _ =>
          match kvstore.Save (save_fail e) (kv w) with
          | inl err =>
              Return (Errorf "save checkpoint" err) (log Debug "creating checkpoint" w)
          | inr st =>
              Continue (set_lastCheckpointEventKey (Key le) s)
                       (with_kv st (log Debug "creating checkpoint" w))
          end
      end.
Proof.
  unfold flush_due, vsphere.tick_branch. destruct (lastEvent s) as [le |]; [| done].
  case_bool_decide; [done |]. intros _. by exists le.
Qed.

(** A firing the loop survives leaves nothing to flush; it wrote once
    if a flush was due and not at all otherwise. *)
Lemma tick_branch_continue e s w s1 w1 :
  tick_branch e s w = Continue s1 w1 →
  flush_due s1 = false ∧
  kvstore.saves (kv w1) = (kvstore.saves (kv w) + (if flush_due s then 1 else 0))%nat ∧
  kvstore.staged (kv w1) = kvstore.staged (kv w) ∧
  acked w1 = acked w ∧
  (flush_due s = false → s1 = s ∧ kv w1 = kv w) ∧
  (flush_due s = true → kvstore.durable (kv w1) = kvstore.staged (kv w)).
Proof.
  intros Htick. destruct (flush_due s) eqn:Hdue.
  - destruct (tick_branch_flush e s w Hdue) as (le & Hle & Heq).
    rewrite Heq in Htick.
    destruct (kvstore.Get _ _ _); [done |].
    unfold kvstore.Save in Htick. destruct (save_fail e); [done |].
    simplify_eq. unfold flush_due. simpl. rewrite Hle.
    rewrite bool_decide_eq_true_2 by done.
    repeat split; try done; simpl; lia.
  - rewrite tick_branch_skip in Htick by done. simplify_eq.
    repeat split; try done; simpl; lia.
Qed.

(** *** What an iteration without a new acknowledgement leaves alone *)

Lemma poll_branch_continue e s w s1 w1 :
  poll_branch e s w = Continue s1 w1 →
  (acked w ≤ acked w1)%nat ∧
  lastCheckpointEventKey s1 = lastCheckpointEventKey s ∧
  kvstore.saves (kv w1) = kvstore.saves (kv w) ∧
  (acked w1 = acked w → lastEvent s1 = lastEvent s ∧ kv w1 = kv w) ∧
  ((acked w < acked w1)%nat → bOff s1 = backoff.Reset (bOff s)).
Proof.
  intros Hpoll.
  destruct (ReadNextEvents e) as [err | events] eqn:Hread.
  { by rewrite (poll_branch_read_error _ _ _ err) in Hpoll. }
  destruct events as [| be rest].
  { rewrite poll_branch_empty in Hpoll by done. simplify_eq.
    unfold acked. simpl. repeat split; try done; lia. }
  destruct (sendEvents (be :: rest) (log Debug "got events" w)) as [[n err] w0] eqn:Hsend.
  pose proof (sendEvents_from_frame _ _ _ _ _ _ _ _ _ _ _ Hsend) as (Hkv & _ & _).
  pose proof (sendEvents_from_acked _ _ _ _ _ _ _ _ _ _ _ Hsend) as (_ & Hacked & _).
  simpl in Hkv. change (acked (log Debug "got events" w)) with (acked w) in Hacked.
  destruct n as [| n].
  - erewrite poll_branch_none_delivered in Hpoll by done. simplify_eq.
    change (acked (log Error "send events" w0)) with (acked w0).
    simpl. rewrite Hkv, Hacked. repeat split; try done; lia.
  - destruct (poll_branch_delivered e s w _ _ _ _ Hread Hsend ltac:(lia))
      as (le & w2 & _ & Hw2 & Heq).
    rewrite Heq in Hpoll. unfold kvstore.Set_ in Hpoll.
    destruct (set_fail e); [done |]. simplify_eq.
    assert (Hacked2 : acked (with_kv
              {| kvstore.staged := <[checkpointKey:=checkpoint_of e le]>
                   (kvstore.staged (kv (if err is Some _ then log Error "send events" w0 else w0)));
                 kvstore.durable := kvstore.durable
                   (kv (if err is Some _ then log Error "send events" w0 else w0));
                 kvstore.saves := kvstore.saves
                   (kv (if err is Some _ then log Error "send events" w0 else w0)) |}
              (if err is Some _ then log Error "send events" w0 else w0)) = acked w0)
      by (by destruct err).
    rewrite Hacked2, Hacked. simpl.
    assert (kv (if err is Some _ then log Error "send events" w0 else w0) = kv w) as ->
      by (by destruct err).
    repeat split; try done; lia.
Qed.

Lemma iteration_continue ctx e s w s1 w1 :
  iteration ctx e s w = Continue s1 w1 →
  (acked w ≤ acked w1)%nat ∧
  (flush_due s = false → acked w1 = acked w → flush_due s1 = false ∧ kv w1 = kv w).
Proof.
  unfold vsphere.iteration. destruct (go_select _ _ _); [done | |]; intros Hit.
  - apply tick_branch_continue in Hit as (Hdue & _ & _ & Hacked & Hskip & _).
    split; [lia |]. intros Hs _. split; [done |]. by apply Hskip.
  - apply poll_branch_continue in Hit as (Hmono & Hkey & _ & Hquiet & _).
    split; [done |]. intros Hs Heq. destruct (Hquiet Heq) as [Hlast Hkv].
    split; [| done]. unfold flush_due in *. by rewrite Hlast, Hkey.
Qed.

Lemma readEvents_loop_continue ctx script s w s1 w1 :
  readEvents_loop ctx script s w = Continue s1 w1 →
  (acked w ≤ acked w1)%nat ∧
  (flush_due s = false → acked w1 = acked w → flush_due s1 = false ∧ kv w1 = kv w).
Proof.
  revert s w. induction script as [| e rest IH]; intros s w Hloop.
  - simpl in Hloop. by simplify_eq.
  - simpl in Hloop.
    destruct (vsphere.iteration _ _ _ _ _ _ _ _ _ _) as [s0 w0 | |] eqn:Hit; [| done | done].
    apply iteration_continue in Hit as [Hmono0 Hquiet0].
    apply IH in Hloop as [Hmono1 Hquiet1].
    split; [lia |]. intros Hs Heq.
    destruct Hquiet0 as [Hs0 Hkv0]; [done | lia |].
    destruct Hquiet1 as [Hs1 Hkv1]; [done | lia |].
    split; [done | congruence].
Qed.

(** C5, amended. Flush elision: a timer firing the loop survives
    performs one durable write when an event was delivered in this run
    whose key differs from the key recorded at the last flush, and none
    otherwise; so of two firings with no acknowledged delivery between
    them the second performs no durable write and leaves the store as it
    is, and across the two at most one durable write is performed. *)
Theorem flush_elision (ctx : context) (e1 e2 : env_step) (script : list env_step)
    (s s1 s2 : loop_state) (w w1 w2 : world) :
  tick_branch e1 s w = Continue s1 w1 →
  readEvents_loop ctx script s1 w1 = Continue s2 w2 →
  acked w2 = acked w1 →
  kvstore.saves (kv w1) = (kvstore.saves (kv w) + (if flush_due s then 1 else 0))%nat ∧
  kv w2 = kv w1 ∧
  tick_branch e2 s2 w2 =
    Continue s2 (log Debug "skipping checkpoint: no new events since last checkpoint" w2) ∧
  (kvstore.saves (kv (world_of (tick_branch e2 s2 w2))) ≤ kvstore.saves (kv w) + 1)%nat.
Proof.
  intros Htick Hloop Hquiet.
  apply tick_branch_continue in Htick as (Hdue1 & Hsaves & _).
  apply readEvents_loop_continue in Hloop as [_ Hkeep].
  destruct (Hkeep Hdue1 Hquiet) as [Hdue2 Hkv].
  split; [done |]. split; [done |].
  rewrite tick_branch_skip by done. split; [done |].
  simpl. rewrite Hkv, Hsaves. destruct (flush_due s); lia.
Qed.

(** *** The backoff controller in the loop *)

Lemma ForAttempt_policy b n :
  same_policy b bOff_init →
  backoff.ForAttempt b n = Z.min (5 * time.Second) (time.Second * 2 ^ Z.of_nat n).
Proof.
  intros (HF & _ & Hmin & Hmax). unfold backoff.ForAttempt.
  by rewrite HF, Hmin, Hmax.
Qed.

Lemma ForAttempt_bounds b n :
  same_policy b bOff_init →
  time.Second <= backoff.ForAttempt b n <= 5 * time.Second.
Proof.
  intros Hb. rewrite ForAttempt_policy by done.
  assert (1 <= 2 ^ Z.of_nat n) by (apply Z.pow_le_mono_r with (b := 0); lia).
  unfold time.Second. lia.
Qed.




Lemma same_policy_Duration b : same_policy (snd (backoff.Duration b)) b.
Proof. done. Qed.

Lemma same_policy_trans b1 b2 b3 :
  same_policy b1 b2 → same_policy b2 b3 → same_policy b1 b3.
Proof. unfold same_policy. intuition congruence. Qed.

(** The loop never changes the policy of its controller. *)
Lemma iteration_policy ctx e s w s1 w1 :
  iteration ctx e s w = Continue s1 w1 → same_policy (bOff s1) (bOff s).
Proof.
  unfold vsphere.iteration. destruct (go_select _ _ _); [done | |]; intros Hit.
  - destruct (flush_due s) eqn:Hdue.
    + destruct (tick_branch_flush e s w Hdue) as (le & _ & Heq). rewrite Heq in Hit.
      destruct (kvstore.Get _ _ _); [done |].
      destruct (kvstore.Save _ _); [done |]. by simplify_eq.
    + rewrite tick_branch_skip in Hit by done. by simplify_eq.
  - destruct (ReadNextEvents e) as [err | events] eqn:Hread.
    { by rewrite (poll_branch_read_error _ _ _ err) in Hit. }
    destruct events as [| be rest].
    { rewrite poll_branch_empty in Hit by done. by simplify_eq. }
    destruct (sendEvents (be :: rest) (log Debug "got events" w)) as [[n err] w0] eqn:Hsend.
    destruct n as [| n].
    + erewrite poll_branch_none_delivered in Hit by done. by simplify_eq.
    + destruct (poll_branch_delivered e s w _ _ _ _ Hread Hsend ltac:(lia))
        as (le & w2 & _ & _ & Heq).
      rewrite Heq in Hit. destruct (kvstore.Set_ _ _ _ _); [done |]. by simplify_eq.
Qed.

Lemma readEvents_loop_policy ctx script s w s1 w1 :
  readEvents_loop ctx script s w = Continue s1 w1 → same_policy (bOff s1) (bOff s).
Proof.
  revert s w. induction script as [| e rest IH]; intros s w Hloop.
  - simpl in Hloop. by simplify_eq.
  - simpl in Hloop.
    destruct (vsphere.iteration _ _ _ _ _ _ _ _ _ _) as [s0 w0 | |] eqn:Hit; [| done | done].
    eapply same_policy_trans; [by eapply IH | by eapply iteration_policy].
Qed.




(** *** The staged checkpoint along a run *)

Lemma converted_fields be ev :
  converted be = Some ev →
  cloudevents.ID ev = fmt_d (Key be) ∧ cloudevents.Time ev = CreatedTime be.
Proof.
  unfold vsphere.converted, SetData.
  destruct (encode (PayloadEncoding a) be) as [err | payload]; [done |].
  intros Heq. by simplify_eq.
Qed.

(** What one iteration does to the sink's log and to the staged state. *)
Lemma iteration_world ctx e s w :
  (∃ more, deliveries (world_of (iteration ctx e s w)) = deliveries w ++ more) ∧
  (kvstore.staged (kv (world_of (iteration ctx e s w))) = kvstore.staged (kv w) ∨
   ∃ le ev result,
     kvstore.staged (kv (world_of (iteration ctx e s w))) =
       <[checkpointKey := checkpoint_of e le]> (kvstore.staged (kv w)) ∧
     converted le = Some ev ∧
     (ev, result) ∈ deliveries (world_of (iteration ctx e s w)) ∧
     cloudevents.IsACK result = true).
Proof.
  assert (Hsame : ∀ w', deliveries w' = deliveries w →
            kvstore.staged (kv w') = kvstore.staged (kv w) →
            (∃ more, deliveries w' = deliveries w ++ more) ∧
            (kvstore.staged (kv w') = kvstore.staged (kv w) ∨
             ∃ le ev result,
               kvstore.staged (kv w') =
                 <[checkpointKey := checkpoint_of e le]> (kvstore.staged (kv w)) ∧
               converted le = Some ev ∧ (ev, result) ∈ deliveries w' ∧
               cloudevents.IsACK result = true)).
  { intros w' Hd Hs. split; [exists []; by rewrite app_nil_r | by left]. }
  unfold vsphere.iteration. destruct (go_select _ _ _).
  - by apply Hsame.
  - destruct (flush_due s) eqn:Hdue.
    + destruct (tick_branch_flush e s w Hdue) as (le & _ & ->).
      destruct (kvstore.Get _ _ _); [by apply Hsame |].
      unfold kvstore.Save. destruct (save_fail e); by apply Hsame.
    + rewrite tick_branch_skip by done. by apply Hsame.
  - destruct (ReadNextEvents e) as [err | events] eqn:Hread.
    { rewrite (poll_branch_read_error _ _ _ err) by done. by apply Hsame. }
    destruct events as [| be rest].
    { rewrite poll_branch_empty by done. by apply Hsame. }
    destruct (sendEvents (be :: rest) (log Debug "got events" w)) as [[n err] w0] eqn:Hsend.
    pose proof (sendEvents_from_frame _ _ _ _ _ _ _ _ _ _ _ Hsend) as (Hkv & _ & _).
    pose proof (sendEvents_from_acked _ _ _ _ _ _ _ _ _ _ _ Hsend) as (Hmore & _ & Hacked).
    simpl in Hkv, Hmore.
    destruct n as [| n].
    + erewrite poll_branch_none_delivered by done. simpl.
      split; [done | left; by rewrite Hkv].
    + destruct (poll_branch_delivered e s w _ _ _ _ Hread Hsend ltac:(lia))
        as (le & w2 & Hle & Hw2 & ->).
      assert (Hd2 : deliveries w2 = deliveries w0) by (subst w2; by destruct err).
      assert (Hkv2 : kv w2 = kv w) by (subst w2; by destruct err).
      destruct (Hacked n le ltac:(lia)) as (ev & result & Hconv & Hin & Hack).
      { by replace (S n - 1)%nat with n in Hle by lia. }
      unfold kvstore.Set_. destruct (set_fail e); simpl.
      * rewrite Hd2, Hkv2. split; [done | by left].
      * rewrite Hd2, Hkv2. split; [done | right]. by exists le, ev, result.
Qed.

Lemma iteration_staged_acked ctx e s w w0 :
  staged_acked checkpointKey w0 w →
  staged_acked checkpointKey w0 (world_of (iteration ctx e s w)).
Proof.
  intros Hinv.
  destruct (iteration_world ctx e s w) as ([more Hmore] & [Hsame | Hnew]).
  - destruct Hinv as [Hold | (cp & ev & result & Hcp & Hin & Hrest)].
    + left. unfold staged_checkpoint in *. by rewrite Hsame.
    + right. exists cp, ev, result. unfold staged_checkpoint in *.
      rewrite Hsame, Hmore. split; [done |]. split; [| done].
      apply elem_of_app. by left.
  - destruct Hnew as (le & ev & result & Hstaged & Hconv & Hin & Hack).
    right. exists (checkpoint_of e le), ev, result. unfold staged_checkpoint.
    rewrite Hstaged, lookup_insert_eq.
    destruct (converted_fields le ev Hconv) as [Hid Htime]. done.
Qed.

(** Along any run of the loop the staged checkpoint is the initial one
    or refers to an acknowledged event. *)
Lemma readEvents_loop_staged_acked ctx script s w w0 :
  staged_acked checkpointKey w0 w →
  staged_acked checkpointKey w0 (world_of (readEvents_loop ctx script s w)).
Proof.
  revert s w. induction script as [| e rest IH]; intros s w Hinv; [done |].
  simpl. pose proof (iteration_staged_acked ctx e s w w0 Hinv) as Hstep.
  destruct (vsphere.iteration _ _ _ _ _ _ _ _ _ _) as [s1 w1 | |]; [by apply IH | done | done].
Qed.

(** C1. Checkpoint staging: for a polled, non-empty batch, when the
    dispatch counts no success the store (hence the staged checkpoint) is
    as it was before the batch and the loop goes on; when it counts
    [n > 0] the n-th event of the batch was handed to the sink and
    acknowledged, and the checkpoint staged then carries the key and the
    creation time of that event (when staging itself fails, the loop
    returns and the store is as before).  Along any run of the loop the
    staged checkpoint is the one the run started with or refers to an
    event the sink acknowledged. *)
Theorem checkpoint_staging (e : env_step) (s : loop_state) (w : world)
    (events : list BaseEvent) (n : nat) (err : option error) (w1 : world) :
  ReadNextEvents e = inr events →
  events ≠ [] →
  sendEvents events (log Debug "got events" w) = ((n, err), w1) →
  (n = 0%nat →
     ∃ w', poll_branch e s w = Continue s w' ∧ kv w' = kv w ∧
           staged_checkpoint checkpointKey w' = staged_checkpoint checkpointKey w) ∧
  ((0 < n)%nat →
     ∃ le ev result,
       events !! (n - 1)%nat = Some le ∧
       converted le = Some ev ∧ (ev, result) ∈ deliveries w1 ∧
       cloudevents.IsACK result = true ∧
       match poll_branch e s w with
       | Continue s' w' =>
           set_fail e = None ∧ lastEvent s' = Some le ∧
           ∃ cp, staged_checkpoint checkpointKey w' = Some cp ∧
                 LastEventKey cp = Key le ∧
                 LastEventKeyTimestamp cp = CreatedTime le
       | Return err' w' =>
           (∃ f, set_fail e = Some f ∧ err' = Errorf "set checkpoint" f) ∧
           kv w' = kv w
       | Panic _ _ => False
       end) ∧
  (∀ ctx script s0 w0,
     staged_acked checkpointKey w0 (world_of (readEvents_loop ctx script s0 w0))).
Proof.
  intros Hread Hne Hsend.
  pose proof (sendEvents_from_frame _ _ _ _ _ _ _ _ _ _ _ Hsend) as (Hkv & _ & _).
  simpl in Hkv. split; [| split];
    [| | intros; apply readEvents_loop_staged_acked; by left].
  - intros ->. eexists. split; [by eapply poll_branch_none_delivered |].
    unfold staged_checkpoint. simpl. by rewrite Hkv.
  - intros Hn.
    destruct (poll_branch_delivered e s w events n err w1 Hread Hsend Hn)
      as (le & w2 & Hle & Hw2 & Hpoll).
    destruct (sendEvents_from_acked _ _ _ _ _ _ _ _ _ _ _ Hsend) as (_ & _ & Hacked).
    destruct (Hacked (n - 1)%nat le ltac:(lia) Hle) as (ev & result & Hconv & Hin & Hack).
    exists le, ev, result. do 4 (split; [done |]).
    assert (Hkv2 : kv w2 = kv w) by (subst w2; by destruct err).
    rewrite Hpoll. unfold kvstore.Set_. destruct (set_fail e) as [f |].
    + split; [eauto | done].
    + split; [done |]. split; [done |].
      exists (checkpoint_of e le). unfold staged_checkpoint. simpl.
      by rewrite lookup_insert_eq.
Qed.

(** *** Errors end the loop *)

Lemma readEvents_loop_app ctx pre post s w s1 w1 :
  readEvents_loop ctx pre s w = Continue s1 w1 →
  readEvents_loop ctx (pre ++ post) s w = readEvents_loop ctx post s1 w1.
Proof.
  revert s w. induction pre as [| e rest IH]; intros s w Hpre.
  - simpl in Hpre. by simplify_eq.
  - simpl in *.
    destruct (vsphere.iteration _ _ _ _ _ _ _ _ _ _) as [s0 w0 | |]; [| done | done].
    by apply IH.
Qed.

Lemma readEvents_loop_return ctx pre e post s w s1 w1 err w' :
  readEvents_loop ctx pre s w = Continue s1 w1 →
  iteration ctx e s1 w1 = Return err w' →
  readEvents_loop ctx (pre ++ e :: post) s w = Return err w'.
Proof.
  intros Hpre Hit. rewrite (readEvents_loop_app _ _ _ _ _ _ _ Hpre).
  simpl. by rewrite Hit.
Qed.

Lemma errors_Is_Errorf prefix err : errors_Is (Errorf prefix err) err = true.
Proof.
  assert (Hrefl : ∀ e, errors_Is e e = true).
  { intros e. destruct e; simpl; rewrite ?bool_decide_eq_true_2 by done; done. }
  simpl. rewrite Hrefl. apply orb_true_r.
Qed.

(** Inside the loop, from any state: a failing get, flush or stage ends
    the loop with that error wrapped; and the failure of the first get does
    not end [run]. *)
Lemma store_failure_ends_loop (ctx : context) (pre post : list env_step)
    (e : env_step) (s s1 : loop_state) (w w1 : world) :
  readEvents_loop ctx pre s w = Continue s1 w1 →
  (∀ err,
     go_select (ctx_Done ctx (clock w1)) (tick_ready e) (pick_done e) = CaseTick →
     flush_due s1 = true →
     kvstore.Get (get_fail e) (kv w1) checkpointKey = inl err →
     readEvents_loop ctx (pre ++ e :: post) s w =
       Return (Errorf "retrieve current checkpoint" err) w1) ∧
  (∀ err current,
     go_select (ctx_Done ctx (clock w1)) (tick_ready e) (pick_done e) = CaseTick →
     flush_due s1 = true →
     kvstore.Get (get_fail e) (kv w1) checkpointKey = inr current →
     kvstore.Save (save_fail e) (kv w1) = inl err →
     readEvents_loop ctx (pre ++ e :: post) s w =
       Return (Errorf "save checkpoint" err) (log Debug "creating checkpoint" w1)) ∧
  (∀ err events n err' w2,
     go_select (ctx_Done ctx (clock w1)) (tick_ready e) (pick_done e) = CaseDefault →
     ReadNextEvents e = inr events →
     sendEvents events (log Debug "got events" w1) = ((n, err'), w2) →
     (0 < n)%nat →
     set_fail e = Some err →
     ∃ w', readEvents_loop ctx (pre ++ e :: post) s w =
             Return (Errorf "set checkpoint" err) w' ∧ kv w' = kv w1) ∧
  (∀ env w0 err vcTime,
     kvstore.Get (init_get_fail env) (kv w0) checkpointKey = inl err →
     current_time env = inr vcTime →
     new_collector_fail env = None →
     run ctx env w0 =
       readEvents ctx (script env)
         (opened vcTime
            (log_all [ Entry Info "no valid checkpoint found";
                       Entry Info "setting begin of event stream" ]
               (log Warn "could not retrieve checkpoint configuration" w0)))).
Proof.
  intros Hpre. repeat split.
  - intros err Hsel Hdue Hget. eapply readEvents_loop_return; [done |].
    unfold vsphere.iteration. rewrite Hsel.
    destruct (tick_branch_flush e s1 w1 Hdue) as (le & _ & ->). by rewrite Hget.
  - intros err current Hsel Hdue Hget Hsave. eapply readEvents_loop_return; [done |].
    unfold vsphere.iteration. rewrite Hsel.
    destruct (tick_branch_flush e s1 w1 Hdue) as (le & _ & ->).
    by rewrite Hget, Hsave.
  - intros err events n err' w2 Hsel Hread Hsend Hn Hset.
    destruct (poll_branch_delivered e s1 w1 _ _ _ _ Hread Hsend Hn)
      as (le' & w3 & _ & Hw3 & Heq).
    pose proof (sendEvents_from_frame _ _ _ _ _ _ _ _ _ _ _ Hsend) as (Hkv & _ & _).
    simpl in Hkv.
    assert (Hkv3 : kv w3 = kv w1) by (subst w3; by destruct err').
    unfold kvstore.Set_ in Heq. rewrite Hset in Heq.
    eexists. split; [| exact Hkv3].
    eapply readEvents_loop_return; [done |].
    unfold vsphere.iteration. by rewrite Hsel, Heq.
  - intros env w0 err vcTime Hget Htime Hopen.
    unfold vsphere.run. by rewrite Hget, Htime, Hopen.
Qed.

(** [run], once the time is told and the collector created, is the loop
    started in [loop_entry]. *)
Lemma run_enters_loop ctx env w vcTime :
  current_time env = inr vcTime →
  new_collector_fail env = None →
  0 < Period (CpConfig a) →
  run ctx env w = readEvents_loop ctx (script env) loop_init (loop_entry env w vcTime) ∧
  run ctx env w = readEvents ctx (script env) (loop_entry env w vcTime).
Proof.
  intros Htime Hopen Hperiod.
  assert (Hrun : run ctx env w = readEvents ctx (script env) (loop_entry env w vcTime)).
  { unfold vsphere.run, vsphere.loop_entry. rewrite Htime, Hopen.
    destruct (kvstore.Get _ _ _); by destruct (getBeginFromCheckpoint _ _ _). }
  split; [| done]. rewrite Hrun. unfold vsphere.readEvents.
  rewrite bool_decide_eq_false_2; [done | lia].
Qed.

(** C7, amended. In a run that has entered the poll loop, a failing get
    or flush of the checkpoint store at a timer firing with a flush due, or
    a failing stage after a batch with a delivery, ends the loop and the
    run: [run] returns that error wrapped.  The failure of the first get,
    in [run], is logged as a warning and the run goes on from the current
    vCenter time with an empty checkpoint. *)
Theorem store_failure_terminates (ctx : context) (env : env_run) (w0 : world)
    (vcTime : Z) (pre post : list env_step) (e : env_step)
    (s1 : loop_state) (w1 : world) :
  current_time env = inr vcTime →
  new_collector_fail env = None →
  0 < Period (CpConfig a) →
  script env = pre ++ e :: post →
  readEvents_loop ctx pre loop_init (loop_entry env w0 vcTime) = Continue s1 w1 →
  (∀ err,
     go_select (ctx_Done ctx (clock w1)) (tick_ready e) (pick_done e) = CaseTick →
     flush_due s1 = true →
     kvstore.Get (get_fail e) (kv w1) checkpointKey = inl err →
     run ctx env w0 = Return (Errorf "retrieve current checkpoint" err) w1) ∧
  (∀ err current,
     go_select (ctx_Done ctx (clock w1)) (tick_ready e) (pick_done e) = CaseTick →
     flush_due s1 = true →
     kvstore.Get (get_fail e) (kv w1) checkpointKey = inr current →
     kvstore.Save (save_fail e) (kv w1) = inl err →
     run ctx env w0 =
       Return (Errorf "save checkpoint" err) (log Debug "creating checkpoint" w1)) ∧
  (∀ err events n err' w2,
     go_select (ctx_Done ctx (clock w1)) (tick_ready e) (pick_done e) = CaseDefault →
     ReadNextEvents e = inr events →
     sendEvents events (log Debug "got events" w1) = ((n, err'), w2) →
     (0 < n)%nat →
     set_fail e = Some err →
     ∃ w', run ctx env w0 = Return (Errorf "set checkpoint" err) w' ∧ kv w' = kv w1) ∧
  (∀ env' w' err vcTime',
     kvstore.Get (init_get_fail env') (kv w') checkpointKey = inl err →
     current_time env' = inr vcTime' →
     new_collector_fail env' = None →
     run ctx env' w' =
       readEvents ctx (script env')
         (opened vcTime'
            (log_all [ Entry Info "no valid checkpoint found";
                       Entry Info "setting begin of event stream" ]
               (log Warn "could not retrieve checkpoint configuration" w')))).
Proof.
  intros Htime Hopen Hperiod Hscript Hpre.
  destruct (run_enters_loop ctx env w0 vcTime Htime Hopen Hperiod) as [Hrun _].
  rewrite Hrun, Hscript.
  destruct (store_failure_ends_loop ctx pre post e loop_init s1
              (loop_entry env w0 vcTime) w1 Hpre) as (Hget & Hsave & Hset & Hfirst).
  split; [exact Hget |]. split; [exact Hsave |]. split; [exact Hset | exact Hfirst].
Qed.

(** *** Cancellation *)

(** C8, amended. Cancellation is observed at the [select] of the loop:
    an iteration that finds the context cancelled returns [ctx.Err()] at
    once (unless a tick is pending as well and the runtime serves it
    first).  The wait after an empty poll is [time.Sleep] for the whole
    backoff duration, between 1s and 5s, whenever the context is
    cancelled; a cancellation raised during the wait is reported by the
    next [select]. *)
Theorem cancellation_at_select (ctx : context) (e : env_step)
    (s : loop_state) (w : world) :
  (ctx_Done ctx (clock w) = true →
   tick_ready e = false ∨ pick_done e = true →
   iteration ctx e s w = Return (ctx_err ctx) w) ∧
  (ctx_Done ctx (clock w) = false →
   tick_ready e = false →
   ReadNextEvents e = inr [] →
   same_policy (bOff s) bOff_init →
   ∃ s' w',
     iteration ctx e s w = Continue s' w' ∧
     clock w' = clock w + fst (backoff.Duration (bOff s)) ∧
     time.Second <= clock w' - clock w <= 5 * time.Second ∧
     (∀ c e2, cancel_at ctx = Some c → c <= clock w' → tick_ready e2 = false →
        iteration ctx e2 s' w' = Return (ctx_err ctx) w')).
Proof.
  split.
  - intros Hdone Hpick. unfold vsphere.iteration. rewrite Hdone.
    destruct Hpick as [-> | ->]; [done |]. by destruct (tick_ready e).
  - intros Hdone Htick Hread Hpol.
    pose proof (ForAttempt_bounds (bOff s) (backoff.attempt (bOff s)) Hpol) as Hb.
    unfold vsphere.iteration. rewrite Hdone, Htick. simpl.
    rewrite poll_branch_empty by done. do 2 eexists. split; [done |].
    simpl. split; [lia |]. split; [lia |].
    intros c e2 Hc Hle Htick2. unfold ctx_Done. rewrite Hc. simpl.
    rewrite Z.max_r in Hle by lia.
    rewrite bool_decide_eq_true_2 by (rewrite Z.max_r by lia; lia).
    by rewrite Htick2.
Qed.

End Loop.

Lemma checkpoint_staging_witness :
  ∃ s' w' cp,
    poll_branch demo.sdk demo.details demo.encode (demo.sink_nack "12") demo.key demo.adapter
      (demo.poll [demo.event 10; demo.event 11; demo.event 12]) loop_init demo.world_empty
    = Continue s' w' ∧
    staged_checkpoint demo.key w' = Some cp ∧ LastEventKey cp = 11.
Proof.
  pose proof (checkpoint_staging demo.sdk demo.details demo.encode (demo.sink_nack "12")
                demo.key demo.adapter
                (demo.poll [demo.event 10; demo.event 11; demo.event 12])
                loop_init demo.world_empty
                [demo.event 10; demo.event 11; demo.event 12] 2 _ _
                eq_refl ltac:(discriminate) eq_refl) as (_ & Hstaged & _).
  destruct (Hstaged ltac:(lia)) as (le & ev & result & Hle & _ & _ & _ & Hpoll).
  simpl in Hle. injection Hle as <-.
  destruct (poll_branch _ _ _ _ _ _ _ _ _) as [s' w' | |]; [| by destruct Hpoll as [[f [? _]] _] | done].
  destruct Hpoll as (_ & _ & cp & Hcp & Hkey & _).
  exists s', w', cp. split; [done |]. split; [done |]. exact Hkey.
Defined.

Lemma panic_unreachable_witness :
  (1 ≤ fst (fst (sendEvents demo.sdk demo.details demo.encode demo.sink_ack demo.adapter
                   [demo.event 10] demo.world_empty)))%nat ∨
  is_Some (snd (fst (sendEvents demo.sdk demo.details demo.encode demo.sink_ack demo.adapter
                       [demo.event 10] demo.world_empty))).
Proof.
  apply (panic_unreachable demo.sdk demo.details demo.encode demo.sink_ack demo.key demo.adapter
           [demo.event 10] demo.world_empty).
  discriminate.
Defined.

(** C5, as stated, fails on an idle stream: two firings in a row with
    nothing delivered before or between them perform no durable write. *)
Lemma flush_elision_counterexample :
  let o := readEvents_loop demo.sdk demo.details demo.encode demo.sink_ack demo.key demo.adapter
             demo.ctx_never [demo.tick; demo.tick] loop_init demo.world_empty in
  o = Continue (state_of o) (world_of o) ∧
  acked (world_of o) = acked demo.world_empty ∧
  kvstore.saves (kv (world_of o)) = kvstore.saves (kv demo.world_empty) ∧
  kvstore.saves (kv (world_of o)) ≠ (kvstore.saves (kv demo.world_empty) + 1)%nat.
Proof. vm_compute. repeat split; congruence. Qed.

Lemma flush_elision_witness :
  let s := fst demo.after_batch in
  let w := snd demo.after_batch in
  let o1 := tick_branch demo.key demo.tick s w in
  let o2 := readEvents_loop demo.sdk demo.details demo.encode demo.sink_ack demo.key demo.adapter
              demo.ctx_never [demo.poll []; demo.poll []] (state_of o1) (world_of o1) in
  kvstore.saves (kv (world_of o1)) = (kvstore.saves (kv w) + 1)%nat ∧
  kv (world_of o2) = kv (world_of o1) ∧
  tick_branch demo.key demo.tick (state_of o2) (world_of o2) =
    Continue (state_of o2)
      (log Debug "skipping checkpoint: no new events since last checkpoint" (world_of o2)).
Proof.
  intros s w o1 o2.
  destruct (flush_elision demo.sdk demo.details demo.encode demo.sink_ack demo.key demo.adapter
              demo.ctx_never demo.tick demo.tick [demo.poll []; demo.poll []]
              s (state_of o1) (state_of o2) w (world_of o1) (world_of o2))
    as (H1 & H2 & H3 & _); [vm_compute; reflexivity ..|].
  split; [exact H1 | split; [exact H2 | exact H3]].
Defined.



(** C7, as stated, fails at startup: the first get of the store fails,
    and the run goes on; it ends later, on cancellation, with an error
    that is not the store's. *)
Lemma store_failure_counterexample :
  let o := run demo.sdk demo.details demo.encode demo.sink_ack demo.key demo.adapter
             demo.ctx_soon demo.env_store_down demo.world_empty in
  kvstore.Get (init_get_fail demo.env_store_down) (kv demo.world_empty) demo.key
    = inl demo.store_down ∧
  o = Return Canceled (world_of o) ∧
  errors_Is Canceled demo.store_down = false ∧
  stream_begin (world_of o) = Some (time.FromUnix 1600000000 0).
Proof. vm_compute. repeat split; congruence. Qed.

Lemma store_failure_terminates_witness :
  let o := readEvents_loop demo.sdk demo.details demo.encode demo.sink_ack demo.key
             demo.adapter demo.ctx_never [demo.poll [demo.event 10; demo.event 11; demo.event 12]]
             loop_init
             (loop_entry demo.key demo.adapter demo.env_flush_fails demo.world_empty
                (time.FromUnix 1600000100 0)) in
  run demo.sdk demo.details demo.encode demo.sink_ack demo.key demo.adapter
    demo.ctx_never demo.env_flush_fails demo.world_empty
  = Return (Errorf "retrieve current checkpoint" demo.store_down) (world_of o).
Proof.
  intros o.
  apply (store_failure_terminates demo.sdk demo.details demo.encode demo.sink_ack demo.key
           demo.adapter demo.ctx_never demo.env_flush_fails demo.world_empty
           (time.FromUnix 1600000100 0)
           [demo.poll [demo.event 10; demo.event 11; demo.event 12]] []
           demo.tick_store_down (state_of o) (world_of o)).
  - reflexivity.
  - reflexivity.
  - vm_compute. reflexivity.
  - reflexivity.
  - vm_compute. reflexivity.
  - reflexivity.
  - vm_compute. reflexivity.
  - reflexivity.
Defined.

(** C8, as stated, fails in the backoff wait: with the context cancelled
    one nanosecond after an empty poll, an interruptible wait would end
    then, but the loop sleeps for the whole second. *)
Lemma cancellation_counterexample :
  let o := iteration demo.sdk demo.details demo.encode demo.sink_ack demo.key demo.adapter
             demo.ctx_soon (demo.poll []) loop_init demo.world_empty in
  cancel_at demo.ctx_soon = Some 1 ∧
  o = Continue (state_of o) (world_of o) ∧
  clock (world_of o) = time.Second ∧
  interruptible_wait_end demo.ctx_soon (clock demo.world_empty)
    (fst (backoff.Duration (bOff loop_init))) = 1 ∧
  clock (world_of o) ≠
    interruptible_wait_end demo.ctx_soon (clock demo.world_empty)
      (fst (backoff.Duration (bOff loop_init))).
Proof. vm_compute. repeat split; congruence. Qed.

Lemma cancellation_at_select_witness :
  ∃ s' w',
    iteration demo.sdk demo.details demo.encode demo.sink_ack demo.key demo.adapter
      demo.ctx_soon (demo.poll []) loop_init demo.world_empty = Continue s' w' ∧
    clock w' = clock demo.world_empty + fst (backoff.Duration (bOff loop_init)) ∧
    time.Second <= clock w' - clock demo.world_empty <= 5 * time.Second ∧
    (∀ c e2, cancel_at demo.ctx_soon = Some c → c <= clock w' → tick_ready e2 = false →
       iteration demo.sdk demo.details demo.encode demo.sink_ack demo.key demo.adapter
         demo.ctx_soon e2 s' w' = Return (ctx_err demo.ctx_soon) w').
Proof.
  apply (proj2 (cancellation_at_select demo.sdk demo.details demo.encode demo.sink_ack demo.key
                  demo.adapter demo.ctx_soon (demo.poll []) loop_init demo.world_empty)).
  - reflexivity.
  - reflexivity.
  - reflexivity.
  - repeat split.
Defined.

(** * Further properties *)

(** ** The resolver: how far back a resume can go *)

Lemma Unix_same_second t u :
  time.Unix t <= time.Unix u → t - u < time.Second.
Proof.
  unfold time.Unix. intros Hle.
  assert (HS : 0 < time.Second) by (unfold time.Second; lia).
  pose proof (Z.mod_pos_bound t time.Second HS).
  pose proof (Z.mod_pos_bound u time.Second HS).
  pose proof (Z.div_mod t time.Second ltac:(lia)).
  pose proof (Z.div_mod u time.Second ltac:(lia)).
  nia.
Qed.

(** X1. Bounded replay: with a checkpoint the stream begins at the floor
    [now - maxAge] or at the checkpoint, never in an earlier Unix second
    than the floor, hence less than a second before it. *)
Theorem replay_window_bound (now : Z) (cp : checkpoint) (maxAge : Z) :
  min_int64 < maxAge <= max_int64 →
  time.IsZero (LastEventKeyTimestamp cp) = false →
  (resolveBegin now cp maxAge = time.Minus now maxAge ∨
   resolveBegin now cp maxAge = LastEventKeyTimestamp cp) ∧
  time.Unix (time.Minus now maxAge) <= time.Unix (resolveBegin now cp maxAge) ∧
  time.Minus now maxAge - resolveBegin now cp maxAge < time.Second.
Proof.
  intros Hd Hz.
  assert (Hfloor : time.Add now (time.mul maxAge (-1)) = time.Minus now maxAge).
  { rewrite mul_neg1 by (unfold int64_range; lia).
    rewrite bool_decide_eq_false_2 by lia. unfold time.Add, time.Minus. lia. }
  unfold resolveBegin.
  destruct (Z_lt_le_dec (time.Unix (LastEventKeyTimestamp cp))
              (time.Unix (time.Minus now maxAge))) as [Hlt | Hle].
  - rewrite resolveBegin_clamp by (done || rewrite Hfloor; lia).
    simpl. rewrite Hfloor. split; [by left |]. split; [lia |].
    unfold time.Second. lia.
  - rewrite resolveBegin_resume by (done || by rewrite Hfloor).
    simpl. split; [by right |]. split; [done |]. by apply Unix_same_second.
Qed.

Lemma replay_window_bound_witness :
  let now := time.FromUnix 100 500000000 in
  let cp := demo.checkpoint_at (time.FromUnix 90 200000000) in
  time.Minus now (10 * time.Second) - resolveBegin now cp (10 * time.Second) < time.Second.
Proof.
  apply (replay_window_bound (time.FromUnix 100 500000000)
           (demo.checkpoint_at (time.FromUnix 90 200000000)) (10 * time.Second)).
  - unfold min_int64, max_int64, time.Second. lia.
  - reflexivity.
Defined.

(** X2. No false alarm: for a replay age whose negation is representable
    (any [int64] duration but the least), the data-loss warning is logged
    exactly when there is a checkpoint and it lies in an earlier Unix second
    than the floor [now - maxAge], that is, exactly when the resolver skips
    events. *)
Theorem data_loss_warning_iff (now : Z) (cp : checkpoint) (maxAge : Z) :
  min_int64 < maxAge <= max_int64 →
  data_loss_warned now cp maxAge = true ↔
    time.IsZero (LastEventKeyTimestamp cp) = false ∧
    time.Unix (LastEventKeyTimestamp cp) < time.Unix (time.Minus now maxAge).
Proof.
  intros Hd.
  assert (Hfloor : time.Add now (time.mul maxAge (-1)) = time.Minus now maxAge).
  { rewrite mul_neg1 by (unfold int64_range; lia).
    rewrite bool_decide_eq_false_2 by lia. unfold time.Add, time.Minus. lia. }
  unfold data_loss_warned.
  destruct (time.IsZero (LastEventKeyTimestamp cp)) eqn:Hz.
  - unfold getBeginFromCheckpoint. rewrite Hz. simpl. split; [done | by intros []].
  - destruct (Z_lt_le_dec (time.Unix (LastEventKeyTimestamp cp))
                (time.Unix (time.Minus now maxAge))) as [Hlt | Hle].
    + rewrite resolveBegin_clamp by (done || rewrite Hfloor; lia). simpl. done.
    + rewrite resolveBegin_resume by (done || by rewrite Hfloor). simpl.
      split; [done | intros [_ ?]; lia].
Qed.

Lemma data_loss_warning_iff_witness :
  data_loss_warned (time.FromUnix 100 500000000)
    (demo.checkpoint_at (time.FromUnix 90 200000000)) (10 * time.Second) = true ↔
  time.IsZero (time.FromUnix 90 200000000) = false ∧
  time.Unix (time.FromUnix 90 200000000)
    < time.Unix (time.Minus (time.FromUnix 100 500000000) (10 * time.Second)).
Proof.
  apply (data_loss_warning_iff (time.FromUnix 100 500000000)
           (demo.checkpoint_at (time.FromUnix 90 200000000)) (10 * time.Second)).
  unfold min_int64, max_int64, time.Second. lia.
Defined.

(** ** Dispatch: the envelope, the order, the error *)

Section DispatchMore.

Context (sdk : cloudevents.SDK)
        (getEventDetails : BaseEvent → EventDetails)
        (encode : string → BaseEvent → error + string)
        (Send : list (cloudevents.Event * option error) → cloudevents.Event → option error)
        (a : vAdapter).

Local Abbreviation envelope := (envelope sdk getEventDetails a).
Local Abbreviation sendEvents_from := (sendEvents_from sdk getEventDetails encode Send a).
Local Abbreviation sendEvents := (sendEvents sdk getEventDetails encode Send a).
Local Abbreviation converted := (converted sdk getEventDetails encode a).
Local Abbreviation history_after := (history_after sdk getEventDetails encode Send a).
Local Abbreviation acknowledged := (acknowledged sdk getEventDetails encode Send a).

Lemma converted_inv be ev :
  converted be = Some ev →
  ∃ payload, encode (PayloadEncoding a) be = inr payload ∧
             ev = cloudevents.withData sdk (PayloadEncoding a) payload (envelope be).
Proof.
  unfold vsphere.converted, SetData.
  destruct (encode (PayloadEncoding a) be) as [err | payload]; [done |].
  intros Heq. simplify_eq. by exists payload.
Qed.

(** X3. The envelope of an event: version 1.0; as source the URI
    reference the SDK parses out of the adapter's trimmed source, or none
    when that does not parse; the key in decimal as ID; the namespaced
    type; the creation time; the two extension attributes and no other; the
    configured encoding, trimmed, as content type; and the encoded event as
    data. *)
Theorem envelope_attributes (be : BaseEvent) (ev : cloudevents.Event) :
  converted be = Some ev →
  cloudevents.SpecVersion ev = "1.0" ∧
  cloudevents.Source ev =
    default "" (cloudevents.ParseURIRef sdk (cloudevents.TrimSpace sdk (Source a))) ∧
  cloudevents.ID ev = pretty (Key be) ∧
  cloudevents.Type_ ev = "com.vmware.vsphere." +:+ EvType (getEventDetails be) +:+ ".v0" ∧
  cloudevents.Time ev = CreatedTime be ∧
  cloudevents.Extensions ev !! "eventclass" = Some (Class (getEventDetails be)) ∧
  cloudevents.Extensions ev !! "vsphereapiversion" = Some (VAPIVersion a) ∧
  (∀ name, is_Some (cloudevents.Extensions ev !! name) →
     name = "eventclass" ∨ name = "vsphereapiversion") ∧
  cloudevents.DataContentType ev = cloudevents.TrimSpace sdk (PayloadEncoding a) ∧
  encode (PayloadEncoding a) be = inr (cloudevents.Data ev).
Proof.
  intros Hconv. apply converted_inv in Hconv as (payload & Henc & ->).
  unfold vsphere.envelope, cloudevents.SetSource.
  assert (Hext : ∀ name : string,
            is_Some ((<[ceVSphereAPIKey := VAPIVersion a]>
                       (<[ceVSphereEventClass := Class (getEventDetails be)]> ∅)
                      : gmap string string) !! name) →
            name = "eventclass" ∨ name = "vsphereapiversion").
  { intros name [v Hv]. unfold ceVSphereAPIKey, ceVSphereEventClass in Hv.
    destruct (decide (name = "vsphereapiversion")) as [-> | Hne1]; [by right |].
    rewrite lookup_insert_ne in Hv by done.
    destruct (decide (name = "eventclass")) as [-> | Hne2]; [by left |].
    by rewrite lookup_insert_ne, lookup_empty in Hv. }
  destruct (cloudevents.ParseURIRef sdk (cloudevents.TrimSpace sdk (Source a)));
    simpl; repeat split; done.
Qed.

(** X4. Envelope IDs tell events apart: two events whose envelopes have
    the same ID have the same key. *)
Theorem envelope_id_injective (be1 be2 : BaseEvent) (ev1 ev2 : cloudevents.Event) :
  converted be1 = Some ev1 →
  converted be2 = Some ev2 →
  cloudevents.ID ev1 = cloudevents.ID ev2 →
  Key be1 = Key be2.
Proof.
  intros H1 H2 Hid.
  apply converted_inv in H1 as (p1 & _ & ->).
  apply converted_inv in H2 as (p2 & _ & ->).
  simpl in Hid. unfold fmt_d in Hid. by apply (inj pretty) in Hid.
Qed.

(** The successes of a dispatch sit in the sink's log in the order of the
    batch, right after what was there before. *)
Lemma sendEvents_from_positions evs c w n err w' :
  sendEvents_from evs c w = ((n, err), w') →
  (length (deliveries w) + (n - c) ≤ length (deliveries w')
     ≤ length (deliveries w) + (n - c) + 1)%nat ∧
  (err = None → length (deliveries w') = (length (deliveries w) + (n - c))%nat) ∧
  ∀ i be, (i < n - c)%nat → evs !! i = Some be →
    ∃ ev result, converted be = Some ev ∧
                 deliveries w' !! (length (deliveries w) + i)%nat = Some (ev, result) ∧
                 cloudevents.IsACK result = true.
Proof.
  revert c w. induction evs as [| be rest IH]; intros c w Hrun.
  - simpl in Hrun. simplify_eq. split; [lia |]. split; [intros; lia |]. intros i be Hi. lia.
  - rewrite sendEvents_from_cons in Hrun.
    destruct (converted be) as [ev |] eqn:Hconv.
    + simpl in Hrun. destruct (cloudevents.IsACK _) eqn:Hack.
      * pose proof (sendEvents_from_count _ _ _ _ _ _ _ _ _ _ _ Hrun) as [Hn _].
        pose proof (sendEvents_from_acked _ _ _ _ _ _ _ _ _ _ _ Hrun) as ([more Hmore] & _).
        apply IH in Hrun as (Hlen & Hnil & Hpos). simpl in Hlen, Hnil, Hpos, Hmore.
        rewrite length_app in Hlen, Hnil, Hpos. simpl in Hlen, Hnil, Hpos.
        split; [lia |]. split; [intros He; rewrite (Hnil He); lia |].
        intros [| i] be' Hi Hlook; simpl in Hlook.
        -- simplify_eq. exists ev, (Send (deliveries w) ev).
           split; [done | split; [| done]].
           rewrite Hmore, Nat.add_0_r, <- app_assoc.
           rewrite lookup_app_r by lia. by rewrite Nat.sub_diag.
        -- destruct (Hpos i be' ltac:(lia) Hlook) as (ev' & r & ? & Hl & ?).
           exists ev', r. split; [done | split; [| done]].
           rewrite <- Hl. f_equal. lia.
      * simplify_eq. simpl. rewrite length_app. simpl.
        apply IsACK_false_is_Some in Hack as [e He].
        split; [lia |]. split; [by rewrite He | intros i be' Hi; lia].
    + apply converted_None in Hconv as [e He]. rewrite He in Hrun. simplify_eq.
      split; [lia |]. split; [done | intros i be' Hi; lia].
Qed.

(** X5. Delivery in order: the [n] events [sendEvents] counts were handed
    to the sink in the order of the batch, each one acknowledged, at the
    positions of the sink's log that follow what it held before; the number
    of acknowledgements in the log grows by exactly [n], and the log by [n]
    entries or, when the call ended on a rejection, [n + 1]. *)
Theorem dispatch_in_order (events : list BaseEvent) (w w' : world)
    (n : nat) (err : option error) :
  sendEvents events w = ((n, err), w') →
  (∀ i be, (i < n)%nat → events !! i = Some be →
     ∃ ev result, converted be = Some ev ∧
                  deliveries w' !! (length (deliveries w) + i)%nat = Some (ev, result) ∧
                  cloudevents.IsACK result = true) ∧
  acked w' = (acked w + n)%nat ∧
  (length (deliveries w) + n ≤ length (deliveries w') ≤ length (deliveries w) + n + 1)%nat ∧
  (err = None → length (deliveries w') = (length (deliveries w) + n)%nat).
Proof.
  intros Hrun.
  pose proof (sendEvents_from_positions _ _ _ _ _ _ Hrun) as (Hlen & Hnil & Hpos).
  pose proof (sendEvents_from_acked _ _ _ _ _ _ _ _ _ _ _ Hrun) as (_ & Hacked & _).
  rewrite Nat.sub_0_r in *. done.
Qed.

(** When every event is acknowledged in turn the whole batch is counted. *)
Lemma sendEvents_from_success evs c w :
  (∀ i be, evs !! i = Some be →
     acknowledged (history_after (deliveries w) (take i evs)) be = true) →
  ∃ w', sendEvents_from evs c w = (((c + length evs)%nat, None), w') ∧
        deliveries w' = history_after (deliveries w) evs.
Proof.
  revert c w. induction evs as [| be rest IH]; intros c w Hacks.
  - exists w. simpl. by rewrite Nat.add_0_r.
  - rewrite sendEvents_from_cons.
    pose proof (Hacks 0%nat be eq_refl) as Hhead. simpl in Hhead.
    unfold vsphere.acknowledged in Hhead.
    destruct (converted be) as [ev |] eqn:Hconv; [| done].
    simpl. rewrite Hhead.
    set (w1 := delivered ev (Send (deliveries w) ev) (log Debug "sending event" w)).
    destruct (IH (S c) w1) as (w' & Hrun & Hdel).
    + intros i be' Hlook. specialize (Hacks (S i) be' Hlook).
      by rewrite firstn_cons, (history_after_cons _ _ _ _ _ _ _ ev) in Hacks.
    + exists w'. rewrite Hrun, Hdel. split; [do 2 f_equal; lia |].
      by rewrite Hconv.
Qed.

(** X6. Full success: when the sink acknowledges every event of the batch
    in turn, [sendEvents] returns the length of the batch with a nil error,
    and the sink has received one envelope per event. *)
Theorem dispatch_full_success (events : list BaseEvent) (w : world) :
  (∀ i be, events !! i = Some be →
     acknowledged (history_after (deliveries w) (take i events)) be = true) →
  ∃ w', sendEvents events w = ((length events, None), w') ∧
        deliveries w' = history_after (deliveries w) events ∧
        length (deliveries w') = (length (deliveries w) + length events)%nat ∧
        acked w' = (acked w + length events)%nat.
Proof.
  intros Hacks. destruct (sendEvents_from_success events 0 w Hacks) as (w' & Hrun & Hdel).
  simpl in Hrun. exists w'. split; [done |]. split; [done |].
  pose proof (sendEvents_from_positions _ _ _ _ _ _ Hrun) as (_ & Hnil & _).
  pose proof (sendEvents_from_acked _ _ _ _ _ _ _ _ _ _ _ Hrun) as (_ & Hacked & _).
  rewrite Nat.sub_0_r in *. split; [by apply Hnil | done].
Qed.

(** The result of a dispatch that fails at position [j], by the kind of
    the failure. *)
Lemma sendEvents_from_fail_shape evs c w j be :
  evs !! j = Some be →
  (∀ i be', (i < j)%nat → evs !! i = Some be' →
     acknowledged (history_after (deliveries w) (take i evs)) be' = true) →
  acknowledged (history_after (deliveries w) (take j evs)) be = false →
  match encode (PayloadEncoding a) be with
  | inl e =>
      ∃ w', sendEvents_from evs c w =
              (((c + j)%nat, Some (Errorf "set data on event" e)), w') ∧
            deliveries w' = history_after (deliveries w) (take j evs)
  | inr payload =>
      let ev := cloudevents.withData sdk (PayloadEncoding a) payload (envelope be) in
      let hist := history_after (deliveries w) (take j evs) in
      ∃ r w', Send hist ev = Some r ∧
              sendEvents_from evs c w = (((c + j)%nat, Some r), w') ∧
              deliveries w' = hist ++ [(ev, Some r)]
  end.
Proof.
  revert c w j. induction evs as [| be0 rest IH]; intros c w j Hbe Hacks Hfail; [done |].
  rewrite sendEvents_from_cons. destruct j as [| j].
  - simpl in Hbe. simplify_eq. simpl in Hfail. simpl.
    unfold vsphere.acknowledged, vsphere.converted, SetData in *.
    destruct (encode (PayloadEncoding a) be) as [e | payload].
    + exists w. by rewrite Nat.add_0_r.
    + simpl in *. rewrite Hfail.
      destruct (IsACK_false_is_Some _ Hfail) as [r Hr].
      exists r. eexists. rewrite Hr, Nat.add_0_r. done.
  - simpl in Hbe.
    pose proof (Hacks 0%nat be0 ltac:(lia) eq_refl) as Hhead. simpl in Hhead.
    unfold vsphere.acknowledged in Hhead.
    destruct (converted be0) as [ev0 |] eqn:Hconv; [| done].
    simpl. rewrite Hhead.
    set (w1 := delivered ev0 (Send (deliveries w) ev0) (log Debug "sending event" w)).
    assert (Hhist : ∀ k, history_after (deliveries w) (take (S k) (be0 :: rest)) =
                         history_after (deliveries w1) (take k rest)).
    { intros k. by rewrite firstn_cons, (history_after_cons _ _ _ _ _ _ _ ev0). }
    specialize (IH (S c) w1 j Hbe).
    rewrite Hconv. replace (c + S j)%nat with (S c + j)%nat by lia.
    apply IH.
    + intros i be' Hi Hlook. rewrite <- Hhist. by apply Hacks; [lia |].
    + by rewrite <- Hhist.
Qed.

(** The sink's log after a prefix of the batch that was acknowledged
    throughout has one entry more per event. *)
Lemma history_after_acked_length hist events j :
  (j ≤ length events)%nat →
  (∀ i be', (i < j)%nat → events !! i = Some be' →
     acknowledged (history_after hist (take i events)) be' = true) →
  length (history_after hist (take j events)) = (length hist + j)%nat.
Proof.
  intros Hj Hacks.
  set (w0 := {| kv := {| kvstore.staged := ∅; kvstore.durable := ∅; kvstore.saves := 0 |};
                deliveries := hist; logs := []; clock := 0; stream_begin := None |}).
  destruct (sendEvents_from_success (take j events) 0 w0) as (w' & Hrun & Hdel).
  { intros i be' Hlook. apply lookup_take_Some in Hlook as [Hlook Hi].
    rewrite take_take, Nat.min_l by lia. by apply Hacks. }
  pose proof (sendEvents_from_positions _ _ _ _ _ _ Hrun) as (_ & Hnil & _).
  simpl in Hdel, Hnil. rewrite <- Hdel, Hnil by done.
  rewrite length_take. lia.
Qed.

(** X7. The error of a failed dispatch: when the event at position [j]
    (from 0) is the first not to go through, the count is [j]; if its
    payload cannot be encoded the error wraps the codec's and the sink does
    not receive the event; if the sink rejects it the error is the sink's
    result itself and the rejected envelope is the last thing sent. *)
Theorem dispatch_failure_error (events : list BaseEvent) (w : world)
    (j : nat) (be : BaseEvent) :
  events !! j = Some be →
  (∀ i be', (i < j)%nat → events !! i = Some be' →
     acknowledged (history_after (deliveries w) (take i events)) be' = true) →
  acknowledged (history_after (deliveries w) (take j events)) be = false →
  match encode (PayloadEncoding a) be with
  | inl e =>
      ∃ w', sendEvents events w = ((j, Some (Errorf "set data on event" e)), w') ∧
            errors_Is (Errorf "set data on event" e) e = true ∧
            deliveries w' = history_after (deliveries w) (take j events) ∧
            acked w' = (acked w + j)%nat ∧
            length (deliveries w') = (length (deliveries w) + j)%nat
  | inr payload =>
      let ev := cloudevents.withData sdk (PayloadEncoding a) payload (envelope be) in
      ∃ r w', sendEvents events w = ((j, Some r), w') ∧
              cloudevents.IsACK (Some r) = false ∧
              last (deliveries w') = Some (ev, Some r) ∧
              acked w' = (acked w + j)%nat ∧
              length (deliveries w') = (length (deliveries w) + j + 1)%nat
  end.
Proof.
  intros Hbe Hacks Hfail.
  pose proof (sendEvents_from_fail_shape events 0 w j be Hbe Hacks Hfail) as Hshape.
  destruct (encode (PayloadEncoding a) be) as [e | payload] eqn:Henc.
  - destruct Hshape as (w' & Hrun & Hdel). simpl in Hrun.
    exists w'. split; [done |].
    pose proof (sendEvents_from_acked _ _ _ _ _ _ _ _ _ _ _ Hrun) as (_ & Hacked & _).
    pose proof (sendEvents_from_positions _ _ _ _ _ _ Hrun) as (Hlen & _ & _).
    rewrite Nat.sub_0_r in *.
    split; [| split; [done | split; [done |]]].
    { apply errors_Is_Errorf. }
    destruct (history_after_positions sdk getEventDetails encode Send a (deliveries w) (take j events))
      as (sent & Heq & Hsent & _).
    rewrite Hdel, Heq, length_app in *. rewrite length_take in Hsent. lia.
  - simpl in Hshape. destruct Hshape as (r & w' & Hr & Hrun & Hdel). simpl in Hrun.
    exists r, w'. split; [done |].
    pose proof (sendEvents_from_acked _ _ _ _ _ _ _ _ _ _ _ Hrun) as (_ & Hacked & _).
    pose proof (sendEvents_from_positions _ _ _ _ _ _ Hrun) as (Hlen & _ & _).
    rewrite Nat.sub_0_r in *.
    unfold vsphere.acknowledged, vsphere.converted, SetData in Hfail.
    rewrite Henc in Hfail. simpl in Hfail. rewrite Hr in Hfail.
    split; [done |]. split; [by rewrite Hdel, last_snoc |]. split; [done |].
    rewrite Hdel, length_app, history_after_acked_length; [simpl; lia | | done].
    apply lookup_lt_Some in Hbe. lia.
Qed.

End DispatchMore.

(** ** The loop: what it writes, when it sleeps, where it resumes *)

Section LoopMore.

Context (sdk : cloudevents.SDK)
        (getEventDetails : BaseEvent → EventDetails)
        (encode : string → BaseEvent → error + string)
        (Send : list (cloudevents.Event * option error) → cloudevents.Event → option error)
        (checkpointKey : string)
        (a : vAdapter).

Local Abbreviation sendEvents := (sendEvents sdk getEventDetails encode Send a).
Local Abbreviation history_after := (history_after sdk getEventDetails encode Send a).
Local Abbreviation acknowledged := (acknowledged sdk getEventDetails encode Send a).
Local Abbreviation checkpoint_of := (checkpoint_of getEventDetails a).
Local Abbreviation tick_branch := (tick_branch checkpointKey).
Local Abbreviation poll_branch := (poll_branch sdk getEventDetails encode Send checkpointKey a).
Local Abbreviation iteration := (iteration sdk getEventDetails encode Send checkpointKey a).
Local Abbreviation readEvents_loop :=
  (readEvents_loop sdk getEventDetails encode Send checkpointKey a).
Local Abbreviation readEvents := (readEvents sdk getEventDetails encode Send checkpointKey a).
Local Abbreviation run := (run sdk getEventDetails encode Send checkpointKey a).

(** The last delivered event and the staged checkpoint agree. *)
Local Abbreviation linked s w :=
  (∀ le, lastEvent s = Some le →
     ∃ cp, staged_checkpoint checkpointKey w = Some cp ∧
           LastEventKey cp = Key le ∧
           LastEventKeyTimestamp cp = CreatedTime le ∧
           LastEventType cp = EvType (getEventDetails le) ∧
           VCenter cp = Source a).

(** A poll after which more is acknowledged than before: what it read,
    what was dispatched, and what it left behind. *)
Lemma poll_branch_delivered_inv e s w s1 w1 :
  poll_branch e s w = Continue s1 w1 →
  (acked w < acked w1)%nat →
  ∃ events n err w0 le,
    ReadNextEvents e = inr events ∧
    sendEvents events (log Debug "got events" w) = ((n, err), w0) ∧
    (0 < n)%nat ∧ events !! (n - 1)%nat = Some le ∧
    set_fail e = None ∧
    s1 = {| lastEvent := Some le;
            lastCheckpointEventKey := lastCheckpointEventKey s;
            bOff := backoff.Reset (bOff s) |} ∧
    kv w1 = {| kvstore.staged := <[checkpointKey := checkpoint_of e le]> (kvstore.staged (kv w));
               kvstore.durable := kvstore.durable (kv w);
               kvstore.saves := kvstore.saves (kv w) |} ∧
    clock w1 = clock w ∧ acked w1 = (acked w + n)%nat.
Proof.
  intros Hpoll Hmore.
  destruct (ReadNextEvents e) as [err | events] eqn:Hread.
  { by rewrite (poll_branch_read_error _ _ _ _ _ _ _ _ _ err) in Hpoll. }
  destruct events as [| be rest].
  { rewrite poll_branch_empty in Hpoll by done. simplify_eq.
    unfold acked in Hmore. simpl in Hmore. lia. }
  destruct (sendEvents (be :: rest) (log Debug "got events" w)) as [[n err] w0] eqn:Hsend.
  pose proof (sendEvents_from_frame _ _ _ _ _ _ _ _ _ _ _ Hsend) as (Hkv & Hclock & _).
  pose proof (sendEvents_from_acked _ _ _ _ _ _ _ _ _ _ _ Hsend) as (_ & Hacked & _).
  simpl in Hkv, Hclock. change (acked (log Debug "got events" w)) with (acked w) in Hacked.
  rewrite Nat.sub_0_r in Hacked.
  destruct n as [| n].
  - erewrite poll_branch_none_delivered in Hpoll by done. simplify_eq.
    change (acked (log Error "send events" w0)) with (acked w0) in Hmore. lia.
  - destruct (poll_branch_delivered sdk getEventDetails encode Send checkpointKey a e s w _ _ _ _ Hread Hsend ltac:(lia))
      as (le & w2 & Hle & Hw2 & Heq).
    rewrite Heq in Hpoll. unfold kvstore.Set_ in Hpoll.
    destruct (set_fail e) eqn:Hset; [done |]. simplify_eq.
    exists (be :: rest), (S n), err, w0, le.
    split; [done |]. split; [done |]. split; [lia |]. do 3 (split; [done |]).
    destruct err; simpl; rewrite ?Hkv, ?Hclock; repeat split; try done; exact Hacked.
Qed.

(** What any iteration leaves alone, however it ends. *)
Lemma iteration_frame ctx e s w :
  stream_begin (world_of (iteration ctx e s w)) = stream_begin w ∧
  (clock (world_of (iteration ctx e s w)) = clock w ∨
   go_select (ctx_Done ctx (clock w)) (tick_ready e) (pick_done e) = CaseDefault ∧
   ReadNextEvents e = inr [] ∧
   clock (world_of (iteration ctx e s w)) =
     clock w + Z.max 0 (fst (backoff.Duration (bOff s)))) ∧
  (flush_due s = false → acked (world_of (iteration ctx e s w)) = acked w →
   kv (world_of (iteration ctx e s w)) = kv w).
Proof.
  unfold vsphere.iteration. destruct (go_select _ _ _) eqn:Hsel.
  - split; [done |]. split; [by left | done].
  - destruct (flush_due s) eqn:Hdue.
    + destruct (tick_branch_flush checkpointKey e s w Hdue) as (le & _ & ->).
      destruct (kvstore.Get _ _ _); [split; [done |]; split; [by left | done] |].
      unfold kvstore.Save. destruct (save_fail e);
        (split; [done |]; split; [by left | done]).
    + rewrite tick_branch_skip by done. split; [done |]. split; [by left | done].
  - destruct (ReadNextEvents e) as [err | events] eqn:Hread.
    { rewrite (poll_branch_read_error _ _ _ _ _ _ _ _ _ err) by done.
      split; [done |]. split; [by left | done]. }
    destruct events as [| be rest].
    { rewrite poll_branch_empty by done. split; [done |]. split; [by right | done]. }
    destruct (sendEvents (be :: rest) (log Debug "got events" w)) as [[n err] w0] eqn:Hsend.
    pose proof (sendEvents_from_frame _ _ _ _ _ _ _ _ _ _ _ Hsend) as (Hkv & Hclock & Hbegin).
    pose proof (sendEvents_from_acked _ _ _ _ _ _ _ _ _ _ _ Hsend) as (_ & Hacked & _).
    simpl in Hkv, Hclock, Hbegin.
    change (acked (log Debug "got events" w)) with (acked w) in Hacked.
    destruct n as [| n].
    + erewrite poll_branch_none_delivered by done. simpl.
      split; [done |]. split; [by left | done].
    + destruct (poll_branch_delivered sdk getEventDetails encode Send checkpointKey a e s w _ _ _ _ Hread Hsend ltac:(lia))
        as (le & w2 & _ & Hw2 & ->).
      assert (Hframe2 : stream_begin w2 = stream_begin w ∧ clock w2 = clock w ∧
                        kv w2 = kv w ∧ acked w2 = acked w0)
        by (subst w2; by destruct err).
      destruct Hframe2 as (Hb2 & Hc2 & Hk2 & Ha2).
      unfold kvstore.Set_. destruct (set_fail e); simpl.
      * split; [done |]. split; [by left | done].
      * split; [done |]. split; [by left |]. intros _ Hsame.
        change (acked (with_kv _ w2)) with (acked w2) in Hsame. lia.
Qed.

Lemma acked_app w w' more :
  deliveries w' = deliveries w ++ more → (acked w ≤ acked w')%nat.
Proof.
  intros Heq. unfold acked. rewrite Heq, filter_app, length_app. lia.
Qed.

Lemma readEvents_loop_frame ctx script s w :
  stream_begin (world_of (readEvents_loop ctx script s w)) = stream_begin w ∧
  (∃ more, deliveries (world_of (readEvents_loop ctx script s w)) = deliveries w ++ more) ∧
  clock w <= clock (world_of (readEvents_loop ctx script s w)).
Proof.
  revert s w. induction script as [| e rest IH]; intros s w.
  - simpl. split; [done |]. split; [exists []; by rewrite app_nil_r | lia].
  - simpl.
    destruct (iteration_frame ctx e s w) as (Hb & Hc & _).
    destruct (iteration_world sdk getEventDetails encode Send checkpointKey a ctx e s w) as ([more Hmore] & _).
    assert (Hclock : clock w <= clock (world_of (iteration ctx e s w)))
      by (destruct Hc as [-> | (_ & _ & ->)]; lia).
    destruct (vsphere.iteration _ _ _ _ _ _ _ _ _ _) as [s1 w1 | |]; simpl in *.
    + destruct (IH s1 w1) as (Hb1 & [more1 Hmore1] & Hc1).
      split; [congruence |]. split; [| lia].
      exists (more ++ more1). by rewrite Hmore1, Hmore, app_assoc.
    + split; [done |]. split; [by exists more | done].
    + split; [done |]. split; [by exists more | done].
Qed.

(** The agreement of last event and staged checkpoint is kept. *)
Lemma iteration_linked ctx e s w s1 w1 :
  iteration ctx e s w = Continue s1 w1 → linked s w → linked s1 w1.
Proof.
  unfold vsphere.iteration. destruct (go_select _ _ _); [done | |]; intros Hit Hinv.
  - destruct (flush_due s) eqn:Hdue.
    + destruct (tick_branch_flush checkpointKey e s w Hdue) as (le & _ & Heq).
      rewrite Heq in Hit. destruct (kvstore.Get _ _ _); [done |].
      unfold kvstore.Save in Hit. destruct (save_fail e); [done |]. by simplify_eq.
    + rewrite tick_branch_skip in Hit by done. by simplify_eq.
  - destruct (decide (acked w < acked w1)%nat) as [Hmore | Hsame].
    + destruct (poll_branch_delivered_inv e s w s1 w1 Hit Hmore)
        as (events & n & err & w0 & le & _ & _ & _ & _ & _ & -> & Hkv & _).
      intros le' Hle'. simpl in Hle'. simplify_eq.
      exists (checkpoint_of e le'). unfold staged_checkpoint. rewrite Hkv. simpl.
      by rewrite lookup_insert_eq.
    + apply poll_branch_continue in Hit as (Hmono & _ & _ & Hquiet & _).
      destruct Hquiet as [Hlast Hkv]; [lia |].
      intros le Hle. rewrite Hlast in Hle. unfold staged_checkpoint. rewrite Hkv.
      by apply Hinv.
Qed.

Lemma readEvents_loop_linked ctx script s w s1 w1 :
  readEvents_loop ctx script s w = Continue s1 w1 → linked s w → linked s1 w1.
Proof.
  revert s w. induction script as [| e rest IH]; intros s w Hloop Hinv.
  - simpl in Hloop. by simplify_eq.
  - simpl in Hloop.
    destruct (vsphere.iteration _ _ _ _ _ _ _ _ _ _) as [s0 w0 | |] eqn:Hit; [| done | done].
    eapply IH; [done |]. by eapply iteration_linked.
Qed.

(** The stream is opened where the resolver says, and stays there. *)
Lemma run_stream_begin ctx env w vcTime :
  current_time env = inr vcTime →
  new_collector_fail env = None →
  stream_begin (world_of (run ctx env w)) =
    Some (resolveBegin vcTime
            (match kvstore.Get (init_get_fail env) (kv w) checkpointKey with
             | inr cp => cp
             | inl _ => checkpoint_zero
             end)
            (MaxAge (CpConfig a))).
Proof.
  intros Htime Hopen.
  assert (Hread : ∀ w0 begin,
            stream_begin (world_of (readEvents ctx (script env) (opened begin w0)))
            = Some begin).
  { intros w0 begin. unfold vsphere.readEvents. case_bool_decide; [done |].
    by destruct (readEvents_loop_frame ctx (script env) loop_init (opened begin w0))
      as (-> & _). }
  unfold vsphere.run. rewrite Htime, Hopen.
  destruct (kvstore.Get _ _ _) as [err | cp] eqn:Hget.
  - unfold resolveBegin.
    destruct (getBeginFromCheckpoint vcTime checkpoint_zero _) as [begin es] eqn:Hbegin.
    by rewrite Hread.
  - unfold resolveBegin.
    destruct (getBeginFromCheckpoint vcTime cp _) as [begin es].
    by rewrite Hread.
Qed.

(** X8. Where the stream is opened: once vCenter has told the time and
    the collector is created, [run] has opened the event stream at the
    begin the resolver computes from the stored checkpoint, however the loop
    goes on; when the first read of the store fails that begin is the
    current vCenter time, whatever the replay age. *)
Theorem run_opens_at_resolved_begin (ctx : context) (env : env_run) (w : world)
    (vcTime : Z) :
  current_time env = inr vcTime →
  new_collector_fail env = None →
  stream_begin (world_of (run ctx env w)) =
    Some (resolveBegin vcTime
            (match kvstore.Get (init_get_fail env) (kv w) checkpointKey with
             | inr cp => cp
             | inl _ => checkpoint_zero
             end)
            (MaxAge (CpConfig a))) ∧
  (∀ err, kvstore.Get (init_get_fail env) (kv w) checkpointKey = inl err →
     stream_begin (world_of (run ctx env w)) = Some vcTime).
Proof.
  intros Htime Hopen. rewrite (run_stream_begin ctx env w vcTime) by done. split; [done |].
  intros err ->. f_equal.
Qed.

(** X9. Upstream failures end the run: when vCenter does not tell the
    time, or the collector cannot be created, [run] returns that error
    wrapped and has neither opened the stream nor touched the store or the
    sink; when a poll fails the loop returns that error wrapped, leaving
    the world as the iteration found it. *)
Theorem upstream_failure_terminates (ctx : context) (env : env_run) (w : world) :
  (∀ err, current_time env = inl err →
     ∃ w', run ctx env w = Return (Errorf "get current time from vCenter" err) w' ∧
           kv w' = kv w ∧ deliveries w' = deliveries w ∧
           stream_begin w' = stream_begin w) ∧
  (∀ vcTime err, current_time env = inr vcTime → new_collector_fail env = Some err →
     ∃ w', run ctx env w = Return (Errorf "create event collector" err) w' ∧
           kv w' = kv w ∧ deliveries w' = deliveries w ∧
           stream_begin w' = stream_begin w) ∧
  (∀ pre e post s s1 w0 w1 err,
     readEvents_loop ctx pre s w0 = Continue s1 w1 →
     go_select (ctx_Done ctx (clock w1)) (tick_ready e) (pick_done e) = CaseDefault →
     ReadNextEvents e = inl err →
     readEvents_loop ctx (pre ++ e :: post) s w0 =
       Return (Errorf "read events from vcenter" err) w1).
Proof.
  split; [| split].
  - intros err Htime. unfold vsphere.run. rewrite Htime.
    destruct (kvstore.Get _ _ _); eexists; (split; [done |]); done.
  - intros vcTime err Htime Hopen. unfold vsphere.run. rewrite Htime, Hopen.
    destruct (kvstore.Get _ _ _);
      destruct (getBeginFromCheckpoint _ _ _); eexists; (split; [done |]); done.
  - intros pre e post s s1 w0 w1 err Hpre Hsel Hread.
    eapply readEvents_loop_return; [done |].
    unfold vsphere.iteration. rewrite Hsel.
    by apply poll_branch_read_error.
Qed.

(** X10. Stage, restart, resume: when the store holds the checkpoint the
    loop staged for an event, and the creation time of that event is not
    before [vcTime - MaxAge], the next [run] opens the stream exactly at
    that creation time.  An event whose creation time is the zero time
    leaves a checkpoint that counts as absent: the stream opens at the
    current vCenter time. *)
Theorem restart_resumes_at_last_delivered (ctx : context) (env : env_run) (w : world)
    (e0 : env_step) (le : BaseEvent) (vcTime : Z) :
  init_get_fail env = None →
  staged_checkpoint checkpointKey w = Some (checkpoint_of e0 le) →
  current_time env = inr vcTime →
  new_collector_fail env = None →
  int64_range (MaxAge (CpConfig a)) →
  (time.IsZero (CreatedTime le) = false →
   time.NotBefore (CreatedTime le) (time.Minus vcTime (MaxAge (CpConfig a))) →
   stream_begin (world_of (run ctx env w)) = Some (CreatedTime le)) ∧
  (time.IsZero (CreatedTime le) = true →
   stream_begin (world_of (run ctx env w)) = Some vcTime).
Proof.
  intros Hfail Hstaged Htime Hopen Hrange.
  pose proof (run_stream_begin ctx env w vcTime Htime Hopen) as Hbegin.
  unfold kvstore.Get in Hbegin. rewrite Hfail in Hbegin.
  unfold staged_checkpoint in Hstaged. rewrite Hstaged in Hbegin.
  rewrite Hbegin. split.
  - intros Hz Hge. f_equal. unfold resolveBegin.
    rewrite resolveBegin_resume; [done | done |]. simpl.
    apply Unix_mono. unfold time.Add, time.NotBefore, time.Minus in *.
    pose proof (mul_neg1_le _ Hrange). lia.
  - intros Hz. f_equal. by apply resolveBegin_empty.
Qed.

(** X11. A partly failed batch advances the checkpoint to the last
    acknowledged event: when the first [k - 1 ≥ 1] events of the polled
    batch are acknowledged, the k-th is not, and staging succeeds, the loop
    goes on with the (k-1)-th event as last event, its checkpoint staged,
    and the backoff reset. *)
Theorem partial_failure_stages_prefix (e : env_step) (s : loop_state) (w : world)
    (events : list BaseEvent) (k : nat) :
  ReadNextEvents e = inr events →
  (2 ≤ k ≤ length events)%nat →
  (∀ i be, (i < k - 1)%nat → events !! i = Some be →
     acknowledged (history_after (deliveries w) (take i events)) be = true) →
  (∀ be, events !! (k - 1)%nat = Some be →
     acknowledged (history_after (deliveries w) (take (k - 1) events)) be = false) →
  set_fail e = None →
  ∃ le s1 w1,
    events !! (k - 2)%nat = Some le ∧
    poll_branch e s w = Continue s1 w1 ∧
    lastEvent s1 = Some le ∧
    staged_checkpoint checkpointKey w1 = Some (checkpoint_of e le) ∧
    lastCheckpointEventKey s1 = lastCheckpointEventKey s ∧
    bOff s1 = backoff.Reset (bOff s) ∧
    kvstore.durable (kv w1) = kvstore.durable (kv w).
Proof.
  intros Hread Hk Hacks Hfail Hset.
  destruct (sendEvents_from_fail sdk getEventDetails encode Send a events 0
              (log Debug "got events" w) (k - 1))
    as (err & w0 & Hsend & _); [lia | done | done |].
  simpl in Hsend.
  destruct (poll_branch_delivered sdk getEventDetails encode Send checkpointKey a
              e s w _ _ _ _ Hread Hsend ltac:(lia)) as (le & w2 & Hle & Hw2 & Heq).
  pose proof (sendEvents_from_frame _ _ _ _ _ _ _ _ _ _ _ Hsend) as (Hkv & _ & _).
  simpl in Hkv. assert (Hkv2 : kv w2 = kv w) by (by subst w2).
  unfold kvstore.Set_ in Heq. rewrite Hset in Heq.
  exists le. do 2 eexists. replace (k - 2)%nat with (k - 1 - 1)%nat by lia.
  split; [done |]. split; [done |]. simpl. split; [done |].
  unfold staged_checkpoint. simpl. rewrite lookup_insert_eq, Hkv2. done.
Qed.

(** X12. The staged checkpoint follows the last delivered event: at any
    point of a run of the loop, if an event was delivered then the staged
    checkpoint exists and carries the key, the creation time and the type
    of the last delivered event, and the adapter's source. *)
Theorem staged_follows_last_event (ctx : context) (script : list env_step)
    (w0 w : world) (s : loop_state) (le : BaseEvent) :
  readEvents_loop ctx script loop_init w0 = Continue s w →
  lastEvent s = Some le →
  ∃ cp, staged_checkpoint checkpointKey w = Some cp ∧
        LastEventKey cp = Key le ∧
        LastEventKeyTimestamp cp = CreatedTime le ∧
        LastEventType cp = EvType (getEventDetails le) ∧
        VCenter cp = Source a.
Proof.
  intros Hloop. revert le. eapply readEvents_loop_linked; [done |].
  intros le Hle. simpl in Hle. done.
Qed.

(** X13. A flush persists the staged state: at a firing of the timer
    with a flush due that the loop survives, the durable state becomes the
    staged state, the durable checkpoint is the one of the last delivered
    event, and its key is the key the loop records. *)
Theorem flush_persists_staged (ctx : context) (script : list env_step) (e : env_step)
    (w0 w w1 : world) (s s1 : loop_state) :
  readEvents_loop ctx script loop_init w0 = Continue s w →
  flush_due s = true →
  tick_branch e s w = Continue s1 w1 →
  kvstore.durable (kv w1) = kvstore.staged (kv w1) ∧
  kvstore.staged (kv w1) = kvstore.staged (kv w) ∧
  kvstore.saves (kv w1) = S (kvstore.saves (kv w)) ∧
  ∃ le cp, lastEvent s1 = Some le ∧
           kvstore.durable (kv w1) !! checkpointKey = Some cp ∧
           LastEventKey cp = Key le ∧
           LastEventKeyTimestamp cp = CreatedTime le ∧
           lastCheckpointEventKey s1 = LastEventKey cp.
Proof.
  intros Hloop Hdue Htick.
  destruct (tick_branch_flush checkpointKey e s w Hdue) as (le & Hle & Heq).
  rewrite Heq in Htick. destruct (kvstore.Get _ _ _); [done |].
  unfold kvstore.Save in Htick. destruct (save_fail e); [done |]. simplify_eq.
  simpl. do 3 (split; [done |]).
  destruct (readEvents_loop_linked ctx script loop_init w0 s w Hloop) with (le := le)
    as (cp & Hcp & Hkey & Htime & _); [by intros ? Hnone | done |].
  exists le, cp. by rewrite Hkey.
Qed.

(** X14. No acknowledgement, no write: however a run of the loop ends or
    goes on from a state with no flush due (such as its start), if the sink
    has acknowledged nothing more than before, the store is untouched:
    nothing was staged and nothing flushed. *)
Theorem no_ack_no_store_write (ctx : context) (script : list env_step)
    (s : loop_state) (w : world) :
  flush_due s = false →
  acked (world_of (readEvents_loop ctx script s w)) = acked w →
  kv (world_of (readEvents_loop ctx script s w)) = kv w.
Proof.
  revert s w. induction script as [| e rest IH]; intros s w Hdue Hsame; [done |].
  simpl in *.
  destruct (iteration_frame ctx e s w) as (_ & _ & Hkv).
  destruct (iteration_world sdk getEventDetails encode Send checkpointKey a ctx e s w)
    as ([more Hmore] & _).
  apply acked_app in Hmore.
  destruct (vsphere.iteration _ _ _ _ _ _ _ _ _ _) as [s1 w1 | |] eqn:Hit; simpl in *;
    [| by apply Hkv | by apply Hkv].
  destruct (readEvents_loop_frame ctx rest s1 w1) as (_ & [more1 Hmore1] & _).
  apply acked_app in Hmore1.
  destruct (iteration_continue _ _ _ _ _ _ _ _ _ _ _ _ Hit) as [_ Hquiet].
  destruct Hquiet as [Hdue1 Hkv1]; [done | lia |].
  rewrite IH; [done | done | lia].
Qed.

(** X15. A flush is skipped when the key of the last delivered event is
    the key the loop has recorded: after a poll that delivered events the
    last of which carries the recorded key (0 before the first flush), the
    new checkpoint is staged, but a firing of the timer writes nothing. *)
Theorem key_collision_skips_flush (e e2 : env_step) (s s1 : loop_state)
    (w w1 : world) (le : BaseEvent) :
  poll_branch e s w = Continue s1 w1 →
  (acked w < acked w1)%nat →
  lastEvent s1 = Some le →
  Key le = lastCheckpointEventKey s →
  staged_checkpoint checkpointKey w1 = Some (checkpoint_of e le) ∧
  tick_branch e2 s1 w1 =
    Continue s1 (log Debug "skipping checkpoint: no new events since last checkpoint" w1) ∧
  kvstore.durable (kv (world_of (tick_branch e2 s1 w1))) = kvstore.durable (kv w) ∧
  kvstore.saves (kv (world_of (tick_branch e2 s1 w1))) = kvstore.saves (kv w).
Proof.
  intros Hpoll Hmore Hle Hkey.
  destruct (poll_branch_delivered_inv e s w s1 w1 Hpoll Hmore)
    as (events & n & err & w0 & le' & _ & _ & _ & _ & _ & -> & Hkv & _).
  simpl in Hle. simplify_eq.
  assert (Hskip : flush_due
            {| lastEvent := Some le; lastCheckpointEventKey := lastCheckpointEventKey s;
               bOff := backoff.Reset (bOff s) |} = false).
  { unfold flush_due. simpl. by rewrite bool_decide_eq_true_2. }
  rewrite tick_branch_skip by done. simpl. rewrite Hkv. simpl.
  unfold staged_checkpoint. rewrite Hkv. simpl. by rewrite lookup_insert_eq.
Qed.

(** X16. The loop sleeps only after an empty poll: the clock of the run
    never goes back, and an iteration moves it only if its [select] took
    the default case and the poll returned no event; a failed batch is
    followed by no delay. *)
Theorem sleep_only_after_empty_poll (ctx : context) (e : env_step)
    (s : loop_state) (w : world) :
  clock w <= clock (world_of (iteration ctx e s w)) ∧
  (clock (world_of (iteration ctx e s w)) ≠ clock w →
   go_select (ctx_Done ctx (clock w)) (tick_ready e) (pick_done e) = CaseDefault ∧
   ReadNextEvents e = inr []) ∧
  (∀ events, ReadNextEvents e = inr events → events ≠ [] →
     clock (world_of (poll_branch e s w)) = clock w).
Proof.
  destruct (iteration_frame ctx e s w) as (_ & Hclock & _).
  split; [destruct Hclock as [-> | (_ & _ & ->)]; lia |]. split.
  - intros Hne. by destruct Hclock as [? | (? & ? & _)].
  - intros events Hread Hne.
    pose proof (iteration_frame {| cancel_at := None; ctx_err := Canceled |}
                  {| tick_ready := false; pick_done := pick_done e;
                     get_fail := get_fail e; save_fail := save_fail e;
                     set_fail := set_fail e; read_next := read_next e;
                     wall_now := wall_now e |} s w) as (_ & Hc & _).
    unfold vsphere.iteration in Hc. simpl in Hc.
    assert (Hsame : ∀ e', read_next e' = read_next e → set_fail e' = set_fail e →
              wall_now e' = wall_now e → poll_branch e' s w = poll_branch e s w).
    { intros e' H1 H2 H3. unfold vsphere.poll_branch, ReadNextEvents, checkpoint_of,
        vsphere.checkpoint_of. by rewrite H1, H2, H3. }
    rewrite Hsame in Hc by done.
    destruct Hc as [? | (_ & Hempty & _)]; [done |].
    unfold ReadNextEvents in *. simpl in Hempty. congruence.
Qed.

End LoopMore.

(** ** Instances *)

Lemma envelope_attributes_witness :
  ∃ ev, converted demo.sdk demo.details demo.encode demo.adapter (demo.event 10) = Some ev ∧
        cloudevents.ID ev = "10" ∧
        cloudevents.Type_ ev = "com.vmware.vsphere.VmPoweredOnEvent.v0".
Proof.
  destruct (converted demo.sdk demo.details demo.encode demo.adapter (demo.event 10))
    as [ev |] eqn:Hconv; [| vm_compute in Hconv; discriminate].
  exists ev. split; [reflexivity |].
  destruct (envelope_attributes demo.sdk demo.details demo.encode demo.adapter
              (demo.event 10) ev Hconv) as (_ & _ & Hid & Hty & _).
  split; [rewrite Hid | rewrite Hty]; vm_compute; reflexivity.
Defined.

Lemma envelope_id_injective_witness :
  Key (demo.event 10) = Key {| Key := 10; CreatedTime := time.zero; Body := "" |}.
Proof.
  apply (envelope_id_injective demo.sdk demo.details demo.encode demo.adapter
           (demo.event 10) {| Key := 10; CreatedTime := time.zero; Body := "" |}
           _ _ eq_refl eq_refl).
  vm_compute. reflexivity.
Defined.

Lemma dispatch_in_order_witness :
  let r := sendEvents demo.sdk demo.details demo.encode (demo.sink_nack "12") demo.adapter
             [demo.event 10; demo.event 11; demo.event 12; demo.event 13]
             demo.world_empty in
  acked (snd r) = (acked demo.world_empty + 2)%nat.
Proof.
  intros r.
  apply (dispatch_in_order demo.sdk demo.details demo.encode (demo.sink_nack "12") demo.adapter
           [demo.event 10; demo.event 11; demo.event 12; demo.event 13]
           demo.world_empty (snd r) 2 (snd (fst r))).
  vm_compute. reflexivity.
Defined.

Lemma dispatch_full_success_witness :
  ∃ w', sendEvents demo.sdk demo.details demo.encode demo.sink_ack demo.adapter
          [demo.event 10; demo.event 11; demo.event 12] demo.world_empty
        = ((3%nat, None), w') ∧
        acked w' = (acked demo.world_empty + 3)%nat.
Proof.
  destruct (dispatch_full_success demo.sdk demo.details demo.encode demo.sink_ack demo.adapter
              [demo.event 10; demo.event 11; demo.event 12] demo.world_empty)
    as (w' & Hrun & _ & _ & Hacked).
  - intros [| [| [| i]]] be Hbe; simpl in Hbe; [| | | discriminate];
      injection Hbe as <-; vm_compute; reflexivity.
  - exists w'. split; [exact Hrun | exact Hacked].
Defined.

Lemma dispatch_failure_error_witness :
  ∃ w', sendEvents demo.sdk demo.details (demo.encode_but 11) demo.sink_ack demo.adapter
          [demo.event 10; demo.event 11; demo.event 12] demo.world_empty
        = ((1%nat, Some (Errorf "set data on event" (ErrExternal "unsupported payload"))), w') ∧
        length (deliveries w') = 1%nat.
Proof.
  pose proof (dispatch_failure_error demo.sdk demo.details (demo.encode_but 11) demo.sink_ack
                demo.adapter [demo.event 10; demo.event 11; demo.event 12]
                demo.world_empty 1 (demo.event 11) eq_refl) as Herr.
  destruct Herr as (w' & Hrun & _ & _ & _ & Hlen).
  - intros [| i] be Hi Hbe; [| lia]. simpl in Hbe. injection Hbe as <-.
    vm_compute. reflexivity.
  - vm_compute. reflexivity.
  - exists w'. split; [exact Hrun | exact Hlen].
Defined.

Lemma run_opens_at_resolved_begin_witness :
  stream_begin (world_of (run demo.sdk demo.details demo.encode demo.sink_ack demo.key
                            demo.adapter demo.ctx_never demo.env_restart
                            demo.world_restarted))
  = Some (CreatedTime (demo.event 12)).
Proof.
  rewrite (proj1 (run_opens_at_resolved_begin demo.sdk demo.details demo.encode demo.sink_ack
                    demo.key demo.adapter demo.ctx_never demo.env_restart
                    demo.world_restarted (time.FromUnix 1600000100 0) eq_refl eq_refl)).
  vm_compute. reflexivity.
Defined.

Lemma upstream_failure_terminates_witness :
  readEvents_loop demo.sdk demo.details demo.encode demo.sink_ack demo.key demo.adapter
    demo.ctx_never ([] ++ [demo.poll_fails]) loop_init demo.world_empty
  = Return (Errorf "read events from vcenter" demo.vcenter_down) demo.world_empty.
Proof.
  apply (proj2 (proj2 (upstream_failure_terminates demo.sdk demo.details demo.encode demo.sink_ack
                         demo.key demo.adapter demo.ctx_never demo.env_restart
                         demo.world_empty))
           [] demo.poll_fails [] loop_init loop_init demo.world_empty demo.world_empty
           demo.vcenter_down eq_refl eq_refl eq_refl).
Defined.

Lemma restart_resumes_at_last_delivered_witness :
  stream_begin (world_of (run demo.sdk demo.details demo.encode demo.sink_ack demo.key
                            demo.adapter demo.ctx_never demo.env_restart
                            demo.world_restarted))
  = Some (CreatedTime (demo.event 12)).
Proof.
  apply (restart_resumes_at_last_delivered demo.sdk demo.details demo.encode demo.sink_ack
           demo.key demo.adapter demo.ctx_never demo.env_restart demo.world_restarted
           (demo.poll []) (demo.event 12) (time.FromUnix 1600000100 0)
           eq_refl eq_refl eq_refl eq_refl).
  - unfold int64_range, min_int64, max_int64. vm_compute. split; discriminate.
  - reflexivity.
  - unfold time.NotBefore. vm_compute. discriminate.
Defined.

Lemma partial_failure_stages_prefix_witness :
  ∃ s1 w1,
    poll_branch demo.sdk demo.details demo.encode (demo.sink_nack "12") demo.key demo.adapter
      (demo.poll [demo.event 10; demo.event 11; demo.event 12; demo.event 13])
      loop_init demo.world_empty = Continue s1 w1 ∧
    staged_checkpoint demo.key w1 =
      Some (checkpoint_of demo.details demo.adapter
              (demo.poll [demo.event 10; demo.event 11; demo.event 12; demo.event 13])
              (demo.event 11)).
Proof.
  destruct (partial_failure_stages_prefix demo.sdk demo.details demo.encode (demo.sink_nack "12")
              demo.key demo.adapter
              (demo.poll [demo.event 10; demo.event 11; demo.event 12; demo.event 13])
              loop_init demo.world_empty
              [demo.event 10; demo.event 11; demo.event 12; demo.event 13] 3 eq_refl)
    as (le & s1 & w1 & Hle & Hpoll & _ & Hstaged & _).
  - simpl. lia.
  - intros [| [| i]] be Hi Hbe; [| | lia]; simpl in Hbe; injection Hbe as <-;
      vm_compute; reflexivity.
  - intros be Hbe. simpl in Hbe. injection Hbe as <-. vm_compute. reflexivity.
  - reflexivity.
  - simpl in Hle. injection Hle as <-. exists s1, w1. split; [exact Hpoll | exact Hstaged].
Defined.

Lemma staged_follows_last_event_witness :
  ∃ cp, staged_checkpoint demo.key (snd demo.after_batch) = Some cp ∧
        LastEventKey cp = 12.
Proof.
  destruct (staged_follows_last_event demo.sdk demo.details demo.encode demo.sink_ack demo.key
              demo.adapter demo.ctx_never
              [demo.poll [demo.event 10; demo.event 11; demo.event 12]]
              demo.world_empty (snd demo.after_batch) (fst demo.after_batch)
              (demo.event 12))
    as (cp & Hcp & Hkey & _); [vm_compute; reflexivity .. |].
  exists cp. split; [exact Hcp | exact Hkey].
Defined.

Lemma flush_persists_staged_witness :
  let o := tick_branch demo.key demo.tick (fst demo.after_batch) (snd demo.after_batch) in
  kvstore.durable (kv (world_of o)) = kvstore.staged (kv (world_of o)) ∧
  kvstore.saves (kv (world_of o)) = 1%nat.
Proof.
  intros o.
  destruct (flush_persists_staged demo.sdk demo.details demo.encode demo.sink_ack demo.key
              demo.adapter demo.ctx_never
              [demo.poll [demo.event 10; demo.event 11; demo.event 12]] demo.tick
              demo.world_empty (snd demo.after_batch) (world_of o)
              (fst demo.after_batch) (state_of o))
    as (Hdurable & _ & Hsaves & _); [vm_compute; reflexivity .. |].
  split; [exact Hdurable | exact Hsaves].
Defined.

Lemma no_ack_no_store_write_witness :
  kv (world_of (readEvents_loop demo.sdk demo.details demo.encode (demo.sink_nack "12") demo.key
                  demo.adapter demo.ctx_never
                  [demo.poll [demo.event 12]; demo.tick; demo.poll []]
                  loop_init demo.world_empty))
  = kv demo.world_empty.
Proof.
  apply (no_ack_no_store_write demo.sdk demo.details demo.encode (demo.sink_nack "12") demo.key
           demo.adapter demo.ctx_never
           [demo.poll [demo.event 12]; demo.tick; demo.poll []] loop_init demo.world_empty).
  - reflexivity.
  - vm_compute. reflexivity.
Defined.

Lemma key_collision_skips_flush_witness :
  let o := poll_branch demo.sdk demo.details demo.encode demo.sink_ack demo.key demo.adapter
             (demo.poll [demo.event 0]) loop_init demo.world_empty in
  staged_checkpoint demo.key (world_of o) =
    Some (checkpoint_of demo.details demo.adapter (demo.poll [demo.event 0]) (demo.event 0)) ∧
  kvstore.saves (kv (world_of (tick_branch demo.key demo.tick (state_of o) (world_of o))))
    = kvstore.saves (kv demo.world_empty).
Proof.
  intros o.
  destruct (key_collision_skips_flush demo.sdk demo.details demo.encode demo.sink_ack demo.key
              demo.adapter (demo.poll [demo.event 0]) demo.tick loop_init (state_of o)
              demo.world_empty (world_of o) (demo.event 0))
    as (Hstaged & _ & _ & Hsaves).
  - vm_compute. reflexivity.
  - vm_compute. lia.
  - vm_compute. reflexivity.
  - reflexivity.
  - split; [exact Hstaged | exact Hsaves].
Defined.

Lemma sleep_only_after_empty_poll_witness :
  clock (world_of (poll_branch demo.sdk demo.details demo.encode (demo.sink_nack "12") demo.key
                     demo.adapter (demo.poll [demo.event 12]) loop_init demo.world_empty))
  = clock demo.world_empty.
Proof.
  apply (proj2 (proj2 (sleep_only_after_empty_poll demo.sdk demo.details demo.encode
                         (demo.sink_nack "12") demo.key demo.adapter demo.ctx_never
                         (demo.poll [demo.event 12]) loop_init demo.world_empty))
           [demo.event 12] eq_refl).
  discriminate.
Defined.

